(** * recruit_ai: match results, rule overlay and candidate search

    A shallow embedding of the match-result dialog, the candidate-search
    table and the rule overlay dialog of the talent-acquisition UI, and of
    the scoring model (source resolver, field scorer, aggregator, keyword
    matcher) that produces the JSON these components display. *)

From Stdlib Require Import ZArith QArith Qround Qabs Qminmax.
From Stdlib Require Import List String Ascii Bool Arith Lia Lqa.
From Stdlib Require Import Permutation.
From Stdlib Require Import DecimalString DecimalN DecimalNat.
From Stdlib Require Import Sorted RelationClasses OrderedTypeEx.
Import ListNotations.

Local Open Scope string_scope.

(** ** JavaScript numbers

    A Number is NaN, an infinity, or a finite value.  Finite doubles are
    dyadic rationals, so they embed in [Q]; the operations below are the
    ECMAScript ones read on the exact mathematical value, as the standard
    defines them.  Negative zero is identified with zero, from which the
    operations used here do not distinguish it. *)

Inductive number : Type :=
| NaN
| Infinity (negative : bool)
| Finite (q : Q).

(** [x < y] on Numbers: false as soon as one side is NaN. *)
Definition number_ltb (x y : number) : bool :=
  match x, y with
  | NaN, _ | _, NaN => false
  | Infinity nx, Infinity ny => nx && negb ny
  | Infinity nx, Finite _ => nx
  | Finite _, Infinity ny => negb ny
  | Finite p, Finite q =>
      match Qcompare p q with Lt => true | _ => false end
  end.

(** ** Strings *)

Fixpoint repeat_char (c : ascii) (n : nat) : string :=
  match n with
  | O => EmptyString
  | S k => String c (repeat_char c k)
  end.

Definition is_digit (c : ascii) : bool :=
  let n := nat_of_ascii c in (48 <=? n)%nat && (n <=? 57)%nat.

Fixpoint all_digits (s : string) : bool :=
  match s with
  | EmptyString => true
  | String c r => is_digit c && all_digits r
  end.

(** Decimal digits of a natural number, most significant first; "0" for 0. *)
Definition decimal_digits (n : N) : string :=
  NilEmpty.string_of_uint (N.to_uint n).

(** Value of a string of decimal digits (leading zeros allowed). *)
Definition digits_value (s : string) : option N :=
  option_map N.of_uint (NilEmpty.uint_of_string s).

(** ** Number.prototype.toFixed

    ECMA-262, Number.prototype.toFixed(fractionDigits), step by step.
    [Number_toString] is Number::toString, used by the standard for values
    that are not finite or are at least 10^21. *)

Section ToFixed.

Variable Number_toString : number -> string.

(** The integer [n] for which [n / 10^f - x] is as close to zero as
    possible, the larger one when there are two ([x] is non-negative). *)
Definition nearest_scaled (f : nat) (x : Q) : Z :=
  Qfloor (x * inject_Z (10 ^ Z.of_nat f) + (1 # 2)).

Definition insert_point (f : nat) (m : string) : string :=
  match f with
  | O => m
  | _ =>
      let k := String.length m in
      let m' := if (k <=? f)%nat then repeat_char "0" (f + 1 - k) ++ m else m in
      let k' := if (k <=? f)%nat then (f + 1)%nat else k in
      let a := substring 0 (k' - f) m' in
      let b := substring (k' - f) f m' in
      a ++ "." ++ b
  end.

Definition toFixed (f : nat) (x : number) : string :=
  match x with
  | NaN | Infinity _ => Number_toString x
  | Finite q =>
      let s := if Qlt_le_dec q 0 then "-" else "" in
      let ax := if Qlt_le_dec q 0 then Qopp q else q in
      if Qlt_le_dec ax (inject_Z (10 ^ 21))
      then s ++ insert_point f (decimal_digits (Z.to_N (nearest_scaled f ax)))
      else s ++ Number_toString (Finite ax)
  end.

End ToFixed.

(** ** JSON values

    Data typed [any] in the sources is whatever JSON.parse produced.  The
    property list of an object is kept in property order (the order of
    Object.entries). *)

#[local] Set Warnings "-register-all".

Inductive json : Type :=
| JNull
| JBool (b : bool)
| JNumber (x : number)
| JString (s : string)
| JArray (items : list json)
| JObject (props : list (string * json)).

(** ToBoolean. *)
Definition truthy (v : json) : bool :=
  match v with
  | JNull => false
  | JBool b => b
  | JNumber NaN => false
  | JNumber (Infinity _) => true
  | JNumber (Finite q) => negb (Qeq_bool q 0)
  | JString s => negb (s =? "")
  | JArray _ | JObject _ => true
  end.

(** [typeof v === 'object'] (true of null as well). *)
Definition typeof_object (v : json) : bool :=
  match v with JNull | JArray _ | JObject _ => true | _ => false end.

Definition is_null (v : json) : bool :=
  match v with JNull => true | _ => false end.

Fixpoint lookup {A : Type} (k : string) (props : list (string * A)) : option A :=
  match props with
  | [] => None
  | (k', v) :: rest => if k =? k' then Some v else lookup k rest
  end.

(** [o.k] on a value that is neither null nor undefined; [None] is
    undefined.  Arrays and primitives have no property of the names used
    in the sources. *)
Definition get_property (v : json) (k : string) : option json :=
  match v with
  | JObject props => lookup k props
  | _ => None
  end.

(** [k in v], for [v] an object or an array and [k] not an index. *)
Definition has_property (k : string) (v : json) : bool :=
  match v with
  | JObject props => match lookup k props with Some _ => true | None => false end
  | _ => false
  end.

Fixpoint mapi_from {A B : Type} (i : nat) (f : nat -> A -> B) (l : list A) : list B :=
  match l with
  | [] => []
  | x :: r => f i x :: mapi_from (S i) f r
  end.

(** [l.map((x, i) => f i x)]. *)
Definition mapi {A B : Type} (f : nat -> A -> B) (l : list A) : list B :=
  mapi_from 0 f l.

Definition index_key (i : nat) : string :=
  NilEmpty.string_of_uint (Nat.to_uint i).

Fixpoint chars (s : string) : list string :=
  match s with
  | EmptyString => []
  | String c r => String c EmptyString :: chars r
  end.

Definition lower_char (c : ascii) : ascii :=
  let n := nat_of_ascii c in
  if ((65 <=? n) && (n <=? 90))%nat then ascii_of_nat (n + 32) else c.

(** String.prototype.toLowerCase, on the ASCII letters: exact on ASCII
    text; other characters are left as they are. *)
Fixpoint toLowerCase (s : string) : string :=
  match s with
  | EmptyString => EmptyString
  | String c r => String (lower_char c) (toLowerCase r)
  end.

Section Conversions.

Variable Number_toString : number -> string.

(** ToString of a JSON value; an array is joined with commas. *)
Fixpoint ToString (v : json) : string :=
  match v with
  | JNull => "null"
  | JBool true => "true"
  | JBool false => "false"
  | JNumber x => Number_toString x
  | JString s => s
  | JArray items =>
      String.concat ","
        (map (fun d => match d with JNull => "" | _ => ToString d end) items)
  | JObject _ => "[object Object]"
  end.

(** The text one element contributes to Array.prototype.join. *)
Definition join_element (d : json) : string :=
  match d with JNull => "" | _ => ToString d end.

Definition join (sep : string) (items : list json) : string :=
  String.concat sep (map join_element items).

End Conversions.

(** ** Match result types (types/matchTypes.ts)

    Fields read through [?.] or guarded by [&&] in the components may be
    missing at run time and are options. *)

Module SourceEvaluated.
Record t : Type := {
  source_field : string;
  data : json;
  score : option number;
  confidence : option number
}.
End SourceEvaluated.

Module MatchResult.
Record t : Type := {
  field : string;
  score : option number;
  confidence : option number;
  best_source_used : string;
  req_data : json;
  sources_evaluated : option (list SourceEvaluated.t)
}.
End MatchResult.

Module MatchResultResponse.
Record t : Type := {
  results : option (list MatchResult.t);
  overall_score_weighted : option number;
  overall_score_average_all : option number;
  overall_score_average_non_zero : option number;
  max_score : option number;
  max_score_field : string
}.
End MatchResultResponse.

Module MatchResultRecord.
Record t : Type := {
  id : string;
  jobId : number;
  profileId : number;
  candidateName : string;
  overallScore : number;
  matchResultsJson : option MatchResultResponse.t;
  organizationId : string;
  agencyId : option string;
  createdBy : string;
  createdAt : string
}.
End MatchResultRecord.

(** ** MatchResultDialog (components/dialogs/MatchResultDialog.tsx) *)

Module Dialog.

Record SourceRow : Type := {
  row_key : nat;
  cell_source_field : string;
  cell_data : string;
  cell_score : string;
  cell_confidence : string
}.

Record Accordion : Type := {
  key : nat;
  defaultExpanded : bool;
  summary_field : string;
  summary_score : string;
  summary_confidence : string;
  best_source : string;
  required_data : string;
  sources_table : option (list SourceRow)
}.

Record OverallCard : Type := {
  weighted_score : string;
  average_all : string;
  average_non_zero : string;
  max_score : string;
  max_score_field : string
}.

Inductive view : Type :=
| NoMatchResults (title body : string)
| MatchAnalysisReport (overall : OverallCard) (breakdown : list Accordion).

End Dialog.

Section MatchResultDialog.

Variable Number_toString : number -> string.

(** [{x?.toFixed(2) ?? 'N/A'}%] *)
Definition percent_or_na (x : option number) : string :=
  match x with
  | Some v => toFixed Number_toString 2 v ++ "%"
  | None => "N/A" ++ "%"
  end.

(** [{x?.toFixed(2)}]: an undefined child renders nothing. *)
Definition fixed_or_nothing (x : option number) : string :=
  match x with
  | Some v => toFixed Number_toString 2 v
  | None => ""
  end.

(** The Data cell of a source row. *)
Definition data_cell (d : json) : string :=
  match d with
  | JArray items =>
      String.concat " | "
        (map (fun d =>
                match d with
                | JArray ds => join Number_toString ", " ds
                | _ => join_element Number_toString d
                end) items)
  | _ => ToString Number_toString d
  end.

Definition required_data_text (req_data : json) : string :=
  match req_data with
  | JArray items => join Number_toString ", " items
  | _ => ToString Number_toString req_data
  end.

Definition source_row (i : nat) (src : SourceEvaluated.t) : Dialog.SourceRow :=
  {| Dialog.row_key := i;
     Dialog.cell_source_field := SourceEvaluated.source_field src;
     Dialog.cell_data := data_cell (SourceEvaluated.data src);
     Dialog.cell_score := fixed_or_nothing (SourceEvaluated.score src);
     Dialog.cell_confidence := fixed_or_nothing (SourceEvaluated.confidence src) |}.

Definition accordion (idx : nat) (result : MatchResult.t) : Dialog.Accordion :=
  {| Dialog.key := idx;
     Dialog.defaultExpanded := (idx <? 3)%nat;
     Dialog.summary_field := MatchResult.field result;
     Dialog.summary_score := fixed_or_nothing (MatchResult.score result);
     Dialog.summary_confidence := fixed_or_nothing (MatchResult.confidence result);
     Dialog.best_source :=
       (if MatchResult.best_source_used result =? ""
        then "N/A" else MatchResult.best_source_used result);
     Dialog.required_data := required_data_text (MatchResult.req_data result);
     Dialog.sources_table :=
       match MatchResult.sources_evaluated result with
       | Some ((_ :: _) as srcs) => Some (mapi source_row srcs)
       | _ => None
       end |}.

Definition MatchResultDialog (matchResponse : option MatchResultResponse.t)
  : Dialog.view :=
  match matchResponse with
  | None =>
      Dialog.NoMatchResults "No Match Results Available"
        "Match results could not be loaded or are missing."
  | Some response =>
      match MatchResultResponse.results response with
      | None =>
          Dialog.NoMatchResults "No Match Results Available"
            "Match results could not be loaded or are missing."
      | Some results =>
          Dialog.MatchAnalysisReport
            {| Dialog.weighted_score :=
                 percent_or_na (MatchResultResponse.overall_score_weighted response);
               Dialog.average_all :=
                 percent_or_na (MatchResultResponse.overall_score_average_all response);
               Dialog.average_non_zero :=
                 percent_or_na (MatchResultResponse.overall_score_average_non_zero response);
               Dialog.max_score :=
                 percent_or_na (MatchResultResponse.max_score response);
               Dialog.max_score_field :=
                 MatchResultResponse.max_score_field response |}
            (mapi accordion results)
      end
  end.

(** The Overall Match Score line of the keyword matcher section
    (AnalyseResumeForm.tsx). *)
Definition keyword_overall_cell (overall_match_score : option number) : string :=
  match overall_match_score with
  | Some v => toFixed Number_toString 2 v ++ "%"
  | None => "N/A"
  end.

End MatchResultDialog.

(** ** Exceptions and the array store

    A component body either returns or throws.  Arrays are objects: they
    live in a store and are handled by reference, so that sorting in place
    and copying can be told apart. *)

Inductive exception : Type :=
| TypeError (message : string)
| ZeroDivisionError.

Inductive outcome (A : Type) : Type :=
| Returns (a : A)
| Throws (e : exception).

Arguments Returns {A} a.
Arguments Throws {A} e.

Definition bind_outcome {A B : Type} (m : outcome A) (k : A -> outcome B) : outcome B :=
  match m with
  | Returns a => k a
  | Throws e => Throws e
  end.

Declare Scope outcome_scope.
Delimit Scope outcome_scope with outcome.
Notation "x <- m ;; k" := (bind_outcome m (fun x => k))
  (at level 61, m at next level, right associativity) : outcome_scope.

Module Store.
Section Store.

Variable A : Type.

Definition ref : Type := nat.
Definition t : Type := list (list A).

Definition read (h : t) (r : ref) : list A := nth r h [].

Fixpoint write (r : ref) (l : list A) (h : t) : t :=
  match h, r with
  | [], _ => []
  | _ :: rest, O => l :: rest
  | a :: rest, S r' => a :: write r' l rest
  end.

Definition alloc (l : list A) (h : t) : ref * t := (List.length h, (h ++ [l])%list).

(** Computations over the store that may throw. *)
Definition M (B : Type) : Type := t -> outcome B * t.

Definition ret {B : Type} (b : B) : M B := fun h => (Returns b, h).

Definition bind {B C : Type} (m : M B) (k : B -> M C) : M C :=
  fun h =>
    match m h with
    | (Returns b, h') => k b h'
    | (Throws e, h') => (Throws e, h')
    end.

(** [[...a]] and the array literal [[]]. *)
Definition spread (r : ref) : M ref := fun h => let '(r', h') := alloc (read h r) h in (Returns r', h').
Definition empty_array : M ref := fun h => let '(r', h') := alloc [] h in (Returns r', h').
Definition array_length (r : ref) : M nat := fun h => (Returns (List.length (read h r)), h).

Section Sort.

(** Array.prototype.sort.  The standard leaves the sequence of
    comparisons to the implementation and asks for a stable result;
    this is the stable insertion sort.  The elements are read, sorted,
    and written back; a comparison that throws ends the call before
    anything is written. *)

Variable comparefn : A -> A -> outcome Z.

Fixpoint insert (x : A) (sorted : list A) : outcome (list A) :=
  match sorted with
  | [] => Returns [x]
  | y :: rest =>
      (c <- comparefn x y ;;
       if (0 <? c)%Z
       then (r <- insert x rest ;; Returns (y :: r))
       else Returns (x :: y :: rest))%outcome
  end.

Fixpoint sort_list (l : list A) : outcome (list A) :=
  match l with
  | [] => Returns []
  | x :: rest => (s <- sort_list rest ;; insert x s)%outcome
  end.

Definition sort (r : ref) : M ref :=
  fun h =>
    match sort_list (read h r) with
    | Returns l => (Returns r, write r l h)
    | Throws e => (Throws e, h)
    end.

End Sort.

End Store.

Arguments read {A} h r.
Arguments write {A} r l h.
Arguments alloc {A} l h.
Arguments ret {A B} b _.
Arguments bind {A B C} m k _.
Arguments spread {A} r _.
Arguments empty_array {A} _.
Arguments array_length {A} r _.
Arguments insert {A} comparefn x sorted.
Arguments sort_list {A} comparefn l.
Arguments sort {A} comparefn r _.

End Store.

Declare Scope store_scope.
Delimit Scope store_scope with store.
Notation "x <- m ;; k" := (Store.bind m (fun x => k))
  (at level 61, m at next level, right associativity) : store_scope.

(** ** CandidateSearch (the candidate search form and results table) *)

Inductive Order : Type := asc | desc.

(** [keyof MatchResultRecord | 'jobTitle'] *)
Inductive OrderBy : Type :=
| by_id | by_jobId | by_profileId | by_candidateName | by_overallScore
| by_matchResultsJson | by_organizationId | by_agencyId | by_createdBy
| by_createdAt | by_jobTitle.

(** What [a[orderBy]] can be, after ToPrimitive. *)
Inductive primitive : Type :=
| PString (s : string)
| PNumber (x : number)
| PNull.

Section CandidateSearch.

Variable Number_toString : number -> string.
Variable StringToNumber : string -> number.

Definition ToNumber (p : primitive) : number :=
  match p with
  | PString s => StringToNumber s
  | PNumber x => x
  | PNull => Finite 0
  end.

(** [x < y]: two strings are compared as strings, anything else as
    Numbers.  Strings are compared character by character; on ASCII text
    this is the order of the UTF-16 code units that JavaScript compares. *)
Definition less_than (x y : primitive) : bool :=
  match x, y with
  | PString a, PString b => String.ltb a b
  | _, _ => number_ltb (ToNumber x) (ToNumber y)
  end.

(** [row[orderBy]] for a key of MatchResultRecord; the match response
    object converts to the string of a plain object. *)
Definition property (orderBy : OrderBy) (row : MatchResultRecord.t) : primitive :=
  match orderBy with
  | by_id => PString (MatchResultRecord.id row)
  | by_jobId => PNumber (MatchResultRecord.jobId row)
  | by_profileId => PNumber (MatchResultRecord.profileId row)
  | by_candidateName => PString (MatchResultRecord.candidateName row)
  | by_overallScore => PNumber (MatchResultRecord.overallScore row)
  | by_matchResultsJson =>
      match MatchResultRecord.matchResultsJson row with
      | Some _ => PString "[object Object]"
      | None => PNull
      end
  | by_organizationId => PString (MatchResultRecord.organizationId row)
  | by_agencyId =>
      match MatchResultRecord.agencyId row with
      | Some s => PString s
      | None => PNull
      end
  | by_createdBy => PString (MatchResultRecord.createdBy row)
  | by_createdAt => PString (MatchResultRecord.createdAt row)
  | by_jobTitle => PNull (* not read: the job title has its own branch *)
  end.

(** [row.matchResultsJson?.results?.find(r => r.field === 'job_title')?.req_data];
    [None] is undefined. *)
Definition job_title_req_data (row : MatchResultRecord.t) : option json :=
  match MatchResultRecord.matchResultsJson row with
  | None => None
  | Some response =>
      match MatchResultResponse.results response with
      | None => None
      | Some results =>
          match find (fun r => MatchResult.field r =? "job_title") results with
          | None => None
          | Some r => Some (MatchResult.req_data r)
          end
      end
  end.

(** [x || fallback] *)
Definition or_else (x : option json) (fallback : json) : json :=
  match x with
  | Some v => if truthy v then v else fallback
  | None => fallback
  end.

Definition getJobTitle (row : MatchResultRecord.t) : json :=
  or_else (job_title_req_data row) (JString "").

(** [v.toLowerCase()]: only strings have the method. *)
Definition call_toLowerCase (v : json) : outcome string :=
  match v with
  | JString s => Returns (toLowerCase s)
  | _ => Throws (TypeError "toLowerCase is not a function")
  end.

Definition comparator (order : Order) (orderBy : OrderBy)
    (a b : MatchResultRecord.t) : outcome Z :=
  (compared <-
     match orderBy with
     | by_jobTitle =>
         compareA <- call_toLowerCase (getJobTitle a) ;;
         compareB <- call_toLowerCase (getJobTitle b) ;;
         Returns (PString compareA, PString compareB)
     | _ => Returns (property orderBy a, property orderBy b)
     end ;;
   let '(compareA, compareB) := compared in
   if less_than compareB compareA
   then Returns (match order with asc => 1 | desc => -1 end)
   else if less_than compareA compareB
   then Returns (match order with asc => -1 | desc => 1 end)
   else Returns 0)%outcome%Z.

(** The memoised [sortedResults]; [None] is a null or undefined
    [results] prop. *)
Definition sortedResults (order : Order) (orderBy : OrderBy)
    (results : option Store.ref) : Store.M MatchResultRecord.t Store.ref :=
  match results with
  | None => Store.empty_array
  | Some r =>
      (len <- Store.array_length r ;;
       if (len =? 0)%nat then Store.empty_array
       else
         copy <- Store.spread r ;;
         Store.sort (comparator order orderBy) copy)%store
  end.

(** One body row of the results table. *)
Record TableRow : Type := {
  row_key : string;
  cell_candidateName : string;
  cell_profileId : number;
  cell_overallScore : string;
  cell_jobTitle : json;
  view_details : option MatchResultResponse.t
}.

Definition table_row (row : MatchResultRecord.t) : TableRow :=
  {| row_key := MatchResultRecord.id row;
     cell_candidateName := MatchResultRecord.candidateName row;
     cell_profileId := MatchResultRecord.profileId row;
     cell_overallScore := toFixed Number_toString 2 (MatchResultRecord.overallScore row);
     cell_jobTitle := or_else (job_title_req_data row) (JString "N/A");
     view_details := MatchResultRecord.matchResultsJson row |}.

End CandidateSearch.

(** ** RuleOverlayDialog (components/common/RuleOverlayDialog.tsx)

    The rule data is the parsed body of the rule response, a tree; a value
    inside it is identified by its access path from the root, which tells
    apart two objects with equal contents. *)

Definition path : Type := list string.

Record node : Type := {
  node_path : path;
  node_value : json
}.

Definition child (parent : node) (k : string) (v : json) : node :=
  {| node_path := (node_path parent ++ [k])%list; node_value := v |}.

(** Object.entries: the own properties of an object, the indexed elements
    of an array, the characters of a string, nothing for the other
    primitives. *)
Definition Object_entries (n : node) : list (string * node) :=
  match node_value n with
  | JObject props => map (fun kv => (fst kv, child n (fst kv) (snd kv))) props
  | JArray items => mapi (fun i v => (index_key i, child n (index_key i) v)) items
  | JString s => mapi (fun i c => (index_key i, child n (index_key i) (JString c))) (chars s)
  | _ => []
  end.

Definition root (ruleData : json) : node :=
  {| node_path := []; node_value := ruleData |}.

(** [ruleData] is the component state, null until the rule is loaded. *)
Definition getGeneralRuleFields (ruleData : json) : list (string * node) :=
  if negb (truthy ruleData) then []
  else
    filter
      (fun entry =>
         let '(key, value) := entry in
         typeof_object (node_value value)
         && negb (is_null (node_value value))
         && has_property "data" (node_value value)
         && negb (key =? "keywordmatch"))
      (Object_entries (root ruleData)).

Definition getKeywordMatchFields (ruleData : json) : list (string * node) :=
  if negb (truthy ruleData) then []
  else
    match get_property ruleData "keywordmatch" with
    | None => []
    | Some keywordmatch =>
        if negb (truthy keywordmatch) then []
        else
          filter
            (fun entry => negb (is_null (node_value (snd entry))))
            (Object_entries (child (root ruleData) "keywordmatch" keywordmatch))
    end.

(** ** CandidateSearch: component state, handlers and what is rendered *)

Definition OrderBy_eq_dec (a b : OrderBy) : {a = b} + {a <> b}.
Proof. decide equality. Defined.

(** The four [useState] cells of the component. *)
Module CandidateSearchState.
Record t : Type := {
  selectedMatch : option MatchResultResponse.t;
  isDialogOpen : bool;
  order : Order;
  orderBy : OrderBy
}.
End CandidateSearchState.

Definition initialState : CandidateSearchState.t :=
  {| CandidateSearchState.selectedMatch := None;
     CandidateSearchState.isDialogOpen := false;
     CandidateSearchState.order := desc;
     CandidateSearchState.orderBy := by_overallScore |}.

Definition handleViewDetails (matchData : option MatchResultResponse.t)
    (st : CandidateSearchState.t) : CandidateSearchState.t :=
  match matchData with
  | Some m =>
      {| CandidateSearchState.selectedMatch := Some m;
         CandidateSearchState.isDialogOpen := true;
         CandidateSearchState.order := CandidateSearchState.order st;
         CandidateSearchState.orderBy := CandidateSearchState.orderBy st |}
  | None => st
  end.

Definition handleCloseDialog (st : CandidateSearchState.t) : CandidateSearchState.t :=
  {| CandidateSearchState.selectedMatch := None;
     CandidateSearchState.isDialogOpen := false;
     CandidateSearchState.order := CandidateSearchState.order st;
     CandidateSearchState.orderBy := CandidateSearchState.orderBy st |}.

Definition handleRequestSort (property : OrderBy)
    (st : CandidateSearchState.t) : CandidateSearchState.t :=
  let isAsc :=
    (if OrderBy_eq_dec (CandidateSearchState.orderBy st) property then true else false)
    && match CandidateSearchState.order st with asc => true | desc => false end in
  {| CandidateSearchState.selectedMatch := CandidateSearchState.selectedMatch st;
     CandidateSearchState.isDialogOpen := CandidateSearchState.isDialogOpen st;
     CandidateSearchState.order := if isAsc then desc else asc;
     CandidateSearchState.orderBy := property |}.

(** What the user can do to the component: the View button of a row
    (which passes the row's [matchResultsJson]), the dialog's [onClose],
    and a click on a column header. *)
Inductive CandidateSearchEvent : Type :=
| ViewClick (matchData : option MatchResultResponse.t)
| DialogClose
| HeaderClick (property : OrderBy).

Definition handleEvent (st : CandidateSearchState.t) (ev : CandidateSearchEvent)
  : CandidateSearchState.t :=
  match ev with
  | ViewClick matchData => handleViewDetails matchData st
  | DialogClose => handleCloseDialog st
  | HeaderClick property => handleRequestSort property st
  end.

Definition array_elements {A : Type} (r : Store.ref) : Store.M A (list A) :=
  fun h => (Returns (Store.read h r), h).

Section CandidateSearchView.

Variable Number_toString : number -> string.
Variable StringToNumber : string -> number.

(** [{selectedMatch && <MatchResultDialog open={isDialogOpen} ...
    matchResponse={selectedMatch} />}]: the [open] prop and the dialog's
    content, or nothing. *)
Definition details_dialog (st : CandidateSearchState.t) : option (bool * Dialog.view) :=
  match CandidateSearchState.selectedMatch st with
  | Some m =>
      Some (CandidateSearchState.isDialogOpen st,
            MatchResultDialog Number_toString (Some m))
  | None => None
  end.

(** One render of the results card: [sortedResults] is computed, then the
    body rows are shown when [!loading && results.length > 0]. *)
Definition results_table (st : CandidateSearchState.t) (loading : bool)
    (results : Store.ref) : Store.M MatchResultRecord.t (option (list TableRow)) :=
  (sorted <- sortedResults StringToNumber
               (CandidateSearchState.order st) (CandidateSearchState.orderBy st)
               (Some results) ;;
   len <- Store.array_length results ;;
   if negb loading && (0 <? len)%nat
   then rows <- array_elements sorted ;;
        Store.ret (Some (map (table_row Number_toString) rows))
   else Store.ret None)%store.

End CandidateSearchView.

(** ** CandidateSearchPage.handleSearch (pages/CandidateSearchPage.tsx)

    What the page stores once [getCandidateMatchesApi] has answered: the
    [results] handed to CandidateSearch and the status message. *)

Module StatusMessage.
Record t : Type := {
  type : string;
  text : string
}.
End StatusMessage.

Definition handleSearch_response (matchResults : option (list MatchResultRecord.t))
  : list MatchResultRecord.t * StatusMessage.t :=
  let matches := match matchResults with Some l => l | None => [] end in
  (matches,
   if (0 <? List.length matches)%nat
   then
     let plural := if (1 <? List.length matches)%nat then "s" else "" in
     {| StatusMessage.type := "success";
        StatusMessage.text :=
          "Found " ++ index_key (List.length matches)
          ++ " matching candidate" ++ plural ++ "." |}
   else
     {| StatusMessage.type := "info";
        StatusMessage.text := "No matching candidates found for the selected job." |}).

(** ** RuleSectionCard (components/common/RuleOverlayDialog.tsx) *)

Definition upper_char (c : ascii) : ascii :=
  let n := nat_of_ascii c in
  if ((97 <=? n) && (n <=? 122))%nat then ascii_of_nat (n - 32) else c.

(** String.prototype.toUpperCase, on the ASCII letters: exact on ASCII
    text; other characters are left as they are. *)
Fixpoint toUpperCase (s : string) : string :=
  match s with
  | EmptyString => EmptyString
  | String c r => String (upper_char c) (toUpperCase r)
  end.

(** [s.replace(/_/g, ' ')] *)
Fixpoint replace_underscores (s : string) : string :=
  match s with
  | EmptyString => EmptyString
  | String c r =>
      String (if (c =? "_")%char then " "%char else c) (replace_underscores r)
  end.

(** [s.charAt(0)] and [s.slice(1)] *)
Definition charAt0 (s : string) : string :=
  match s with
  | EmptyString => EmptyString
  | String c _ => String c EmptyString
  end.

Definition slice1 (s : string) : string :=
  match s with
  | EmptyString => EmptyString
  | String _ r => r
  end.

Definition capitalizedLabel (label : string) : string :=
  toUpperCase (charAt0 label) ++ replace_underscores (slice1 label).

(** ** RegisterForm.handleChange (components/auth/RegisterForm.tsx) *)

Definition is_alphanumeric (c : ascii) : bool :=
  let n := nat_of_ascii c in
  ((48 <=? n) && (n <=? 57) || (65 <=? n) && (n <=? 90)
   || (97 <=? n) && (n <=? 122))%nat.

(** [s.replace(/[^...]/g, '')]: the characters of the class are kept. *)
Fixpoint keep_chars (keep : ascii -> bool) (s : string) : string :=
  match s with
  | EmptyString => EmptyString
  | String c r =>
      if keep c then String c (keep_chars keep r) else keep_chars keep r
  end.

Module RegisterFormData.
Record t : Type := {
  fullName : string;
  organizationName : string;
  organizationId : string;
  email : string;
  password : string;
  confirmPassword : string
}.
End RegisterFormData.

(** The [name] attributes of the six inputs of the form. *)
Inductive RegisterField : Type :=
| name_fullName | name_organizationName | name_organizationId
| name_email | name_password | name_confirmPassword.

Definition initialFormData : RegisterFormData.t :=
  {| RegisterFormData.fullName := "";
     RegisterFormData.organizationName := "";
     RegisterFormData.organizationId := "";
     RegisterFormData.email := "";
     RegisterFormData.password := "";
     RegisterFormData.confirmPassword := "" |}.

(** [{...formData, [name]: v}] *)
Definition set_field (name : RegisterField) (v : string) (formData : RegisterFormData.t)
  : RegisterFormData.t :=
  {| RegisterFormData.fullName :=
       match name with name_fullName => v | _ => RegisterFormData.fullName formData end;
     RegisterFormData.organizationName :=
       match name with
       | name_organizationName => v
       | _ => RegisterFormData.organizationName formData
       end;
     RegisterFormData.organizationId :=
       match name with
       | name_organizationId => v
       | _ => RegisterFormData.organizationId formData
       end;
     RegisterFormData.email :=
       match name with name_email => v | _ => RegisterFormData.email formData end;
     RegisterFormData.password :=
       match name with name_password => v | _ => RegisterFormData.password formData end;
     RegisterFormData.confirmPassword :=
       match name with
       | name_confirmPassword => v
       | _ => RegisterFormData.confirmPassword formData
       end |}.

Definition handleChange (name : RegisterField) (value : string)
    (formData : RegisterFormData.t) : RegisterFormData.t :=
  match name with
  | name_organizationId =>
      let alphanumericValue := substring 0 6 (keep_chars is_alphanumeric value) in
      set_field name (toLowerCase alphanumericValue) formData
  | _ => set_field name value formData
  end.

(** ** Event handlers that call their props

    A handler takes the component state and an event to the next state and
    the calls it makes, in order. *)

Fixpoint run_events {S E C : Type} (handle : S -> E -> S * list C)
    (st : S) (events : list E) : S * list C :=
  match events with
  | [] => (st, [])
  | ev :: rest =>
      let '(st1, calls) := handle st ev in
      let '(st2, more) := run_events handle st1 rest in
      (st2, (calls ++ more)%list)
  end.

Module File.
Record t : Type := {
  name : string;
  type : string
}.
End File.

(** ** DocxUploadModal (components/common/DocxUploadModal.tsx) *)

Inductive DocxUploadEvent : Type :=
| DocxFileChange (files : option (list File.t))
| DocxUploadClick.

Inductive DocxUploadCall : Type :=
| console_error (message : string)
| console_log (message name type : string)
| onUpload (file : File.t)
| onClose.

(** The state is [selectedFile]; a handler gives the next state and the
    calls made. *)
Module DocxUploadModal.

Definition handleFileChange (files : option (list File.t)) (selectedFile : option File.t)
  : option File.t * list DocxUploadCall :=
  match files with
  | Some (file :: _) => (Some file, [])
  | _ => (selectedFile, [])
  end.

Definition handleUploadClick (selectedFile : option File.t)
  : option File.t * list DocxUploadCall :=
  match selectedFile with
  | None => (selectedFile, [console_error "No file selected."])
  | Some file =>
      (None,
       [console_log "Uploading file:" (File.name file) (File.type file);
        onUpload file;
        onClose])
  end.

Definition handle (selectedFile : option File.t) (ev : DocxUploadEvent)
  : option File.t * list DocxUploadCall :=
  match ev with
  | DocxFileChange files => handleFileChange files selectedFile
  | DocxUploadClick => handleUploadClick selectedFile
  end.

End DocxUploadModal.

(** ** FileUploadInput (components/common/FileUploadInput.tsx) *)

Module FileUploadState.
Record t : Type := {
  internalSelectedFile : option File.t;
  internalMessage : option StatusMessage.t
}.
End FileUploadState.

Definition initialFileUploadState : FileUploadState.t :=
  {| FileUploadState.internalSelectedFile := None;
     FileUploadState.internalMessage := None |}.

(** A change of the file input, a click on the upload button, and the
    resumption of the click handler once the promise of [onUploadClick]
    is fulfilled. *)
Inductive FileUploadEvent : Type :=
| InternalFileChange (files : option (list File.t))
| InternalUploadClick
| UploadFulfilled.

Inductive FileUploadCall : Type :=
| onFileSelect (file : option File.t)
| onUploadClick (file : File.t).

Section FileUploadInput.

Variable allowedFileExtensions : list string.
Variable acceptedFileMimeTypes : list string.

(** [acceptedFileMimeTypes.includes(t)] *)
Definition accepted (t : string) : bool :=
  existsb (fun m => m =? t) acceptedFileMimeTypes.

Definition handleInternalFileChange (files : option (list File.t))
  : FileUploadState.t * list FileUploadCall :=
  match files with
  | Some (file :: _) =>
      if accepted (File.type file)
      then ({| FileUploadState.internalSelectedFile := Some file;
               FileUploadState.internalMessage := None |},
            [onFileSelect (Some file)])
      else ({| FileUploadState.internalSelectedFile := None;
               FileUploadState.internalMessage :=
                 Some {| StatusMessage.type := "error";
                         StatusMessage.text :=
                           "Invalid file type. Please upload a "
                           ++ String.concat "/" allowedFileExtensions
                           ++ " file." |} |},
            [onFileSelect None])
  | _ =>
      ({| FileUploadState.internalSelectedFile := None;
          FileUploadState.internalMessage := None |},
       [onFileSelect None])
  end.

(** The click handler up to its [await], and its resumption. *)
Definition handleInternalUploadClick (st : FileUploadState.t)
  : FileUploadState.t * list FileUploadCall :=
  match FileUploadState.internalSelectedFile st with
  | Some file => (st, [onUploadClick file])
  | None =>
      ({| FileUploadState.internalSelectedFile := None;
          FileUploadState.internalMessage :=
            Some {| StatusMessage.type := "info";
                    StatusMessage.text := "Please select a file to upload." |} |},
       [])
  end.

Definition handleInternalUploadClick_resumed (st : FileUploadState.t)
  : FileUploadState.t * list FileUploadCall :=
  ({| FileUploadState.internalSelectedFile := None;
      FileUploadState.internalMessage := FileUploadState.internalMessage st |},
   []).

Definition FileUploadInput_handle (st : FileUploadState.t) (ev : FileUploadEvent)
  : FileUploadState.t * list FileUploadCall :=
  match ev with
  | InternalFileChange files => handleInternalFileChange files
  | InternalUploadClick => handleInternalUploadClick st
  | UploadFulfilled => handleInternalUploadClick_resumed st
  end.

(** The [accept] attribute of the file input:
    [allowedFileExtensions.map(ext => `.${ext.substring(1)}`).join(',')]. *)
Definition accept_attribute : string :=
  String.concat "," (map (fun ext => "." ++ slice1 ext) allowedFileExtensions).

End FileUploadInput.

(** ** AnalyseResumeForm (components/analyse_resume/AnalyseResumeForm.tsx) *)

Definition allowedFileTypes : list string :=
  ["application/vnd.openxmlformats-officedocument.wordprocessingml.document"].

Module AnalyseResumeState.
Record t : Type := {
  selectedFile : option File.t;
  message : option StatusMessage.t
}.
End AnalyseResumeState.

Definition initialAnalyseResumeState : AnalyseResumeState.t :=
  {| AnalyseResumeState.selectedFile := None;
     AnalyseResumeState.message := None |}.

(** A change of the file input, a click on the upload button, and a
    successful or failed answer of the upload, with the message the
    handler derives from it. *)
Inductive AnalyseResumeEvent : Type :=
| ResumeFileChange (files : option (list File.t))
| ResumeUploadClick
| ResumeUploadSucceeded (successMessage : string)
| ResumeUploadFailed (errorMessage : string).

Inductive AnalyseResumeCall : Type :=
| uploadResumeApiv3 (resume : File.t).

Module AnalyseResumeForm.

Definition handleFileChange (files : option (list File.t)) (st : AnalyseResumeState.t)
  : AnalyseResumeState.t * list AnalyseResumeCall :=
  match files with
  | Some (file :: _) =>
      if accepted allowedFileTypes (File.type file)
      then ({| AnalyseResumeState.selectedFile := Some file;
               AnalyseResumeState.message := None |}, [])
      else ({| AnalyseResumeState.selectedFile := None;
               AnalyseResumeState.message :=
                 Some {| StatusMessage.type := "error";
                         StatusMessage.text :=
                           "Invalid file type. Please upload a .docx file." |} |},
            [])
  | _ =>
      ({| AnalyseResumeState.selectedFile := AnalyseResumeState.selectedFile st;
          AnalyseResumeState.message := None |}, [])
  end.

(** [handleUpload] up to its [await]. *)
Definition handleUpload (st : AnalyseResumeState.t)
  : AnalyseResumeState.t * list AnalyseResumeCall :=
  match AnalyseResumeState.selectedFile st with
  | None =>
      ({| AnalyseResumeState.selectedFile := None;
          AnalyseResumeState.message :=
            Some {| StatusMessage.type := "info";
                    StatusMessage.text :=
                      "Please select a file to upload first." |} |},
       [])
  | Some file =>
      ({| AnalyseResumeState.selectedFile := Some file;
          AnalyseResumeState.message := None |},
       [uploadResumeApiv3 file])
  end.

(** [handleUpload] after the [await]: the [try] branch and the [catch]
    branch. *)
Definition handleUpload_succeeded (successMessage : string) (st : AnalyseResumeState.t)
  : AnalyseResumeState.t * list AnalyseResumeCall :=
  ({| AnalyseResumeState.selectedFile := None;
      AnalyseResumeState.message :=
        Some {| StatusMessage.type := "success";
                StatusMessage.text := successMessage |} |},
   []).

Definition handleUpload_failed (errorMessage : string) (st : AnalyseResumeState.t)
  : AnalyseResumeState.t * list AnalyseResumeCall :=
  ({| AnalyseResumeState.selectedFile := AnalyseResumeState.selectedFile st;
      AnalyseResumeState.message :=
        Some {| StatusMessage.type := "error";
                StatusMessage.text := errorMessage |} |},
   []).

Definition handle (st : AnalyseResumeState.t) (ev : AnalyseResumeEvent)
  : AnalyseResumeState.t * list AnalyseResumeCall :=
  match ev with
  | ResumeFileChange files => handleFileChange files st
  | ResumeUploadClick => handleUpload st
  | ResumeUploadSucceeded successMessage => handleUpload_succeeded successMessage st
  | ResumeUploadFailed errorMessage => handleUpload_failed errorMessage st
  end.

End AnalyseResumeForm.

(** [renderKeywordDetails]: the boxes of one details record, a category
    with its chips each. *)
Module KeywordBox.
Record Chip : Type := {
  chip_key : string;
  label : string
}.
Record t : Type := {
  key : string;
  heading : string;
  chips : list Chip
}.
End KeywordBox.

Inductive KeywordDetails : Type :=
| DetailsNotAvailable
| DetailsBoxes (boxes : list KeywordBox.t).

(** [item.keyword || 'N/A'] *)
Definition keyword_label (keyword : option string) : string :=
  match keyword with
  | Some k => if k =? "" then "N/A" else k
  | None => "N/A"
  end.

Definition keyword_box (category : string) (items : list (option string)) : KeywordBox.t :=
  {| KeywordBox.key := category;
     KeywordBox.heading := replace_underscores category ++ ":";
     KeywordBox.chips :=
       mapi (fun idx keyword =>
               {| KeywordBox.chip_key := category ++ "-" ++ index_key idx;
                  KeywordBox.label := keyword_label keyword |})
            items |}.

(** [details] is a record from category to items (each item given by its
    optional [keyword]); [None] is undefined, and so is a category whose
    items are null.  A category without items yields a falsy element,
    which [filter(Boolean)] drops. *)
Definition renderKeywordDetails
    (details : option (list (string * option (list (option string)))))
  : KeywordDetails :=
  match details with
  | None | Some [] => DetailsNotAvailable
  | Some entries =>
      DetailsBoxes
        (flat_map
           (fun entry =>
              match snd entry with
              | Some ((_ :: _) as items) => [keyword_box (fst entry) items]
              | _ => []
              end)
           entries)
  end.

(** ** JobDescriptionPage: the organization selected after loading
    (pages/JobDescriptionPage.tsx) *)

Module Organization.
Record t : Type := {
  id : string;
  name : string
}.
End Organization.

(** [appUser_organizationId] is [appUser!.organizationId]. *)
Definition preselected_organization (appUser_organizationId : string)
    (fetchedOrgs : list Organization.t) : string :=
  if negb (appUser_organizationId =? "")
     && existsb (fun org => Organization.id org =? appUser_organizationId) fetchedOrgs
  then appUser_organizationId
  else
    match fetchedOrgs with
    | [org] => Organization.id org
    | _ => ""
    end.

(** [if (selectedId) ... getJobDescriptionsApi(selectedId)]: the
    organization whose job descriptions are requested, if any. *)
Definition job_descriptions_requested (selectedId : string) : option string :=
  if selectedId =? "" then None else Some selectedId.

(** ** The scoring model

    The match results are computed by the matching engine of the back-end
    service (services/matching_engine_service.py) and by its keyword
    matcher plugin; the front end holds only the types of the JSON they
    produce.  The definitions of this part follow the specification of
    that engine. *)

Local Open Scope Q_scope.

(** Modelled from the spec: the match requirement of a rule (section 3);
    the rule store of the back end is missing. *)
Inductive MatchReq : Type := MANDATORY | OPTIONAL.

(** Modelled from the spec: the rule type, which selects the scoring
    algorithm (section 3); the field scorer of the back end is missing. *)
Inductive RuleType : Type := EXACT | RANGE | DESCRIPTIVE | NEGATIVE_CONSTRAINT.

(** Modelled from the spec: the threshold direction a NEGATIVE_CONSTRAINT
    rule must define (section 3), that is the side of the threshold the
    rule allows. *)
Inductive Direction : Type := at_most | at_least.

(** Modelled from the spec: how a keyword is searched in the resume text,
    as an exact token, stemmed, or fuzzy (section 4.5); the keyword
    matcher plugin is missing. *)
Inductive MatchType : Type := exact_token | stemmed | fuzzy.

(** Modelled from the spec: the expected value(s) of a rule (section 3,
    Rule.data), whose producer, the rule store of the back end, is
    missing: a scalar string, an ordered sequence of strings, a range, or
    the threshold and direction a NEGATIVE_CONSTRAINT rule must define. *)
Inductive RuleData : Type :=
| Scalar (s : string)
| Sequence (l : list string)
| Range (lo hi : Q)
| Threshold (direction : Direction) (limit : Q).

Module Rule.
(** Modelled from the spec: the Rule of section 3; the back-end rule
    store that holds it is missing. *)
Record t : Type := {
  field : string;
  matchreq : MatchReq;
  type : RuleType;
  weightage : Z;
  data : RuleData;
  profiledatasource : list string;
  sourcecondition : option string;
  fromsource : option string
}.
End Rule.

(** Modelled from the spec: a value extracted from the candidate profile
    document (section 4.2); the back-end profile store is missing. *)
Inductive CandidateData : Type :=
| Text (s : string)
| Quantity (q : Q).

(** Modelled from the spec: the candidate profile as the source resolver
    reads it, a document addressed by profile paths (section 4.2). *)
Definition Profile : Type := list (string * CandidateData).

Module CandidateSourceValue.
(** Modelled from the spec: the (source_field, data, score, confidence)
    tuple of section 3, recorded by the missing source resolver; [None]
    is [data=null]. *)
Record t : Type := {
  source_field : string;
  data : option CandidateData;
  score : Q;
  confidence : Q
}.
End CandidateSourceValue.

Module FieldResult.
(** Modelled from the spec: the Field Result of section 3, produced by
    the missing field scorer. *)
Record t : Type := {
  field : string;
  score : Q;
  confidence : Q;
  best_source_used : string;
  req_data : RuleData;
  sources_evaluated : list CandidateSourceValue.t
}.
End FieldResult.

Module Aggregate.
(** Modelled from the spec: the aggregate part of the Match Result
    (section 4.4), produced by the missing aggregator. *)
Record t : Type := {
  overall_score_weighted : Q;
  overall_score_average_all : Q;
  overall_score_average_non_zero : Q;
  max_score : Q;
  max_score_field : string
}.
End Aggregate.

(** Modelled from the spec: the policy constants the specification leaves
    to the implementer of the missing engine (sections 4.3, 4.5 and 9):
    the penalty per unit of deviation derived from the weightage, the
    floor of a penalty, the interpolated score of a value outside the
    expected range, the textual similarity, the confidence of a fallback
    source, and the search of a keyword in the resume text (which gives
    the matched form when found). *)
Record Policy : Type := {
  penalty_unit : Z -> Q;
  penalty_floor : Q;
  range_partial : Q -> Q -> Q -> Q;
  similarity : string -> string -> Q;
  fallback_confidence : nat -> Q;
  find_keyword : MatchType -> string -> string -> option string
}.

(** Modelled from the spec: what the Field Result invariant of section 3
    (a score lies in [-100,100]) asks of those constants: a penalty unit
    is not negative and the floor of a penalty lies between -100 and 0,
    an interpolated range score lies between none (0) and full
    containment (100), and the similarity is normalised.  Whether the
    unit derived from a weightage is positive, and whether the floor is
    below 0, is the choice of the policy (section 9). *)
Record policy_bounded (P : Policy) : Prop := {
  penalty_unit_nonneg : forall w, 0 <= penalty_unit P w;
  penalty_floor_low : -(100) <= penalty_floor P;
  penalty_floor_high : penalty_floor P <= 0;
  range_partial_bounds : forall lo hi v,
    0 <= range_partial P lo hi v /\ range_partial P lo hi v <= 100;
  similarity_bounds : forall a b,
    0 <= similarity P a b /\ similarity P a b <= 1
}.

(** Modelled from the spec: the whitespace that EXACT rules ignore
    (section 4.3). *)
Definition is_space (c : ascii) : bool :=
  let n := nat_of_ascii c in
  ((n =? 32) || (n =? 9) || (n =? 10) || (n =? 13))%nat.

(** Modelled from the spec: the case- and whitespace-insensitive
    normal form compared by EXACT rules (section 4.3). *)
Fixpoint normalize (s : string) : string :=
  match s with
  | EmptyString => EmptyString
  | String c r =>
      if is_space c then normalize r else String (lower_char c) (normalize r)
  end.

(** Modelled from the spec: the rounding of a DESCRIPTIVE score to the
    nearest integer (section 4.3, round). *)
Definition round (x : Q) : Q := inject_Z (Qfloor (x + (1 # 2))).

(** Modelled from the spec: how far the candidate is beyond the threshold
    of a NEGATIVE_CONSTRAINT rule, in the direction the rule forbids
    (section 4.3: deviation). *)
Definition deviation (direction : Direction) (limit value : Q) : Q :=
  match direction with
  | at_most => value - limit
  | at_least => limit - value
  end.

Module FieldScorer.

(** Modelled from the spec: the score of one extracted value under a
    rule, by rule type (section 4.3); the field scorer of the back end is
    missing.  A value the rule type cannot read scores 0. *)
Definition score_value (P : Policy) (rule : Rule.t) (d : CandidateData) : Q :=
  match Rule.type rule, Rule.data rule, d with
  | EXACT, Scalar expected, Text extracted =>
      if (normalize expected =? normalize extracted)%string then 100 else 0
  | RANGE, Range lo hi, Quantity v =>
      if Qle_bool lo v && Qle_bool v hi then 100 else range_partial P lo hi v
  | DESCRIPTIVE, Scalar expected, Text extracted =>
      round (similarity P expected extracted * 100)
  | NEGATIVE_CONSTRAINT, Threshold direction limit, Quantity v =>
      let over := deviation direction limit v in
      if Qle_bool over 0 then 0
      else Qmax (penalty_floor P) (- (over * penalty_unit P (Rule.weightage rule)))
  | _, _, _ => 0
  end.

(** Modelled from the spec: confidence reflects path directness, 100 for
    the primary source and scaled down for fallback sources
    (section 4.3). *)
Definition confidence_at (P : Policy) (position : nat) : Q :=
  match position with
  | O => 100
  | S _ => fallback_confidence P position
  end.

(** Modelled from the spec: one step of the search for the winning
    source; a later source replaces the best one only with a strictly
    higher score (section 4.2). *)
Definition better (best : option CandidateSourceValue.t)
    (sv : CandidateSourceValue.t) : option CandidateSourceValue.t :=
  match best with
  | None => Some sv
  | Some b =>
      if Qlt_le_dec (CandidateSourceValue.score b) (CandidateSourceValue.score sv)
      then Some sv else Some b
  end.

(** Modelled from the spec: the winning source, the one with the highest
    individual score, the earlier one on a tie (section 4.2). *)
Definition best_source (sourceValues : list CandidateSourceValue.t)
  : option CandidateSourceValue.t :=
  fold_left better sourceValues None.

(** Modelled from the spec: the contract
    [score(rule, sourceValues) -> FieldResult] of section 4.3. *)
Definition score (rule : Rule.t) (sourceValues : list CandidateSourceValue.t)
  : FieldResult.t :=
  let best := best_source sourceValues in
  {| FieldResult.field := Rule.field rule;
     FieldResult.score :=
       match best with Some b => CandidateSourceValue.score b | None => 0 end;
     FieldResult.confidence :=
       match best with Some b => CandidateSourceValue.confidence b | None => 0 end;
     FieldResult.best_source_used :=
       match best with Some b => CandidateSourceValue.source_field b | None => ""%string end;
     FieldResult.req_data := Rule.data rule;
     FieldResult.sources_evaluated := sourceValues |}.

End FieldScorer.

Module SourceResolver.

(** Modelled from the spec: reading one profile path (section 4.2). *)
Definition read_source (profile : Profile) (source : string) : option CandidateData :=
  lookup source profile.

(** Modelled from the spec: the entry recorded for one configured
    source; a source that yields no data is recorded with data=null,
    score=0, confidence=0 (section 4.2). *)
Definition evaluate (P : Policy) (rule : Rule.t) (profile : Profile)
    (position : nat) (source : string) : CandidateSourceValue.t :=
  match read_source profile source with
  | None =>
      {| CandidateSourceValue.source_field := source;
         CandidateSourceValue.data := None;
         CandidateSourceValue.score := 0;
         CandidateSourceValue.confidence := 0 |}
  | Some d =>
      {| CandidateSourceValue.source_field := source;
         CandidateSourceValue.data := Some d;
         CandidateSourceValue.score := FieldScorer.score_value P rule d;
         CandidateSourceValue.confidence := FieldScorer.confidence_at P position |}
  end.

(** Modelled from the spec: the contract
    [resolve(rule, profile) -> CandidateSourceValue[]] of section 4.2,
    which iterates [rule.profiledatasource] in order; the source resolver
    of the back end is missing. *)
Definition resolve (P : Policy) (rule : Rule.t) (profile : Profile)
  : list CandidateSourceValue.t :=
  mapi (evaluate P rule profile) (Rule.profiledatasource rule).

End SourceResolver.

(** Modelled from the spec: one invocation of the field scorer per rule
    (section 2, data flow). *)
Definition score_rule (P : Policy) (profile : Profile) (rule : Rule.t) : FieldResult.t :=
  FieldScorer.score rule (SourceResolver.resolve P rule profile).

(** Modelled from the spec: the sum of a list of scores or weights, the
    sigma of sections 4.4 and 4.5. *)
Definition total (l : list Q) : Q := fold_right Qplus 0 l.

Module Aggregator.

(** Modelled from the spec: the running totals of the fold over the
    scored fields (section 5: scoring is a fold over rules); the
    aggregator of the back end is missing. *)
Record totals : Type := {
  weighted_sum : Q;
  weight_sum : Z;
  score_sum : Q;
  field_count : nat;
  non_zero_sum : Q;
  non_zero_count : nat;
  top : option (string * Q)
}.

(** Modelled from the spec: the totals before any field is seen. *)
Definition no_totals : totals :=
  {| weighted_sum := 0; weight_sum := 0%Z; score_sum := 0; field_count := 0%nat;
     non_zero_sum := 0; non_zero_count := 0%nat; top := None |}.

(** Modelled from the spec: one step of the fold (section 4.4).  A field
    enters the weighted sums only when its rule has weightage > 0, the
    non-zero mean only when its score is not 0, and replaces the maximum
    only when strictly higher (first occurrence wins a tie). *)
Definition add_field (acc : totals) (scored : Rule.t * FieldResult.t) : totals :=
  let w := Rule.weightage (fst scored) in
  let s := FieldResult.score (snd scored) in
  {| weighted_sum :=
       if (0 <? w)%Z then weighted_sum acc + s * inject_Z w else weighted_sum acc;
     weight_sum :=
       if (0 <? w)%Z then (weight_sum acc + w)%Z else weight_sum acc;
     score_sum := score_sum acc + s;
     field_count := S (field_count acc);
     non_zero_sum := if Qeq_bool s 0 then non_zero_sum acc else non_zero_sum acc + s;
     non_zero_count :=
       if Qeq_bool s 0 then non_zero_count acc else S (non_zero_count acc);
     top :=
       match top acc with
       | None => Some (FieldResult.field (snd scored), s)
       | Some (f, m) =>
           if Qlt_le_dec m s then Some (FieldResult.field (snd scored), s)
           else Some (f, m)
       end |}.

(** Modelled from the spec: the fold over the scored fields
    (section 5). *)
Definition accumulate (acc : totals) (results : list (Rule.t * FieldResult.t)) : totals :=
  fold_left add_field results acc.

(** Modelled from the spec: the result when aggregation would divide by
    zero (section 7: no fields, or all weightage = 0; all aggregate fields
    default to 0). *)
Definition all_zero : Aggregate.t :=
  {| Aggregate.overall_score_weighted := 0;
     Aggregate.overall_score_average_all := 0;
     Aggregate.overall_score_average_non_zero := 0;
     Aggregate.max_score := 0;
     Aggregate.max_score_field := ""%string |}.

(** Modelled from the spec: a division, which throws on a zero divisor
    (section 7 speaks of division by zero throwing). *)
Definition divide (x y : Q) : outcome Q :=
  if Qeq_bool y 0 then Throws ZeroDivisionError else Returns (x / y).

(** Modelled from the spec: the statistics of section 4.4 from the
    totals, with the defaults of section 7. *)
Definition finish (acc : totals) : outcome Aggregate.t :=
  if (weight_sum acc =? 0)%Z then Returns all_zero
  else
    (weighted <- divide (weighted_sum acc) (inject_Z (weight_sum acc)) ;;
     average_all <- divide (score_sum acc) (inject_Z (Z.of_nat (field_count acc))) ;;
     average_non_zero <-
       match non_zero_count acc with
       | O => Returns 0
       | S _ => divide (non_zero_sum acc) (inject_Z (Z.of_nat (non_zero_count acc)))
       end ;;
     Returns
       {| Aggregate.overall_score_weighted := weighted;
          Aggregate.overall_score_average_all := average_all;
          Aggregate.overall_score_average_non_zero := average_non_zero;
          Aggregate.max_score :=
            match top acc with Some (_, m) => m | None => 0 end;
          Aggregate.max_score_field :=
            match top acc with Some (f, _) => f | None => ""%string end |})%outcome.

(** Modelled from the spec: the contract [aggregate(results)] of section
    4.4; each field result comes with the rule it was scored under, which
    carries its weightage. *)
Definition aggregate (results : list (Rule.t * FieldResult.t)) : outcome Aggregate.t :=
  finish (accumulate no_totals results).

End Aggregator.

Module KeywordEntry.
(** Modelled from the spec: a weighted keyword entry
    [{keyword, weight, match_type}] (section 3). *)
Record t : Type := {
  keyword : string;
  weight : Q;
  match_type : MatchType
}.
End KeywordEntry.

Module KeywordRuleCategory.
(** Modelled from the spec: a named group of weighted keyword entries
    (section 3). *)
Record t : Type := {
  name : string;
  entries : list KeywordEntry.t
}.
End KeywordRuleCategory.

Module KeywordMatchDetail.
(** Modelled from the spec: an entry of [matched_details], the keyword
    with the literal matched text form (section 4.5). *)
Record t : Type := {
  weight : Q;
  keyword : string;
  match_type : MatchType;
  matched_form_in_text : string
}.
End KeywordMatchDetail.

Module MissingDetail.
(** Modelled from the spec: an entry of [missing_details]
    (section 4.5). *)
Record t : Type := {
  weight : Q;
  keyword : string
}.
End MissingDetail.

Module KeywordMatcher.

(** Modelled from the spec: the output of [matchKeywords] (section 4.5),
    produced by the missing keyword matcher plugin.  The specification
    gives no formula for [category_scores], which is left out. *)
Record t : Type := {
  matched_details : list (string * list KeywordMatchDetail.t);
  missing_details : list (string * list MissingDetail.t);
  overall_match_score : Q;
  total_achieved_score : Q;
  total_possible_score : Q
}.

(** Modelled from the spec: the matched entries of a category, each with
    the form found in the text. *)
Fixpoint matched (P : Policy) (resumeText : string) (entries : list KeywordEntry.t)
  : list KeywordMatchDetail.t :=
  match entries with
  | [] => []
  | e :: rest =>
      match find_keyword P (KeywordEntry.match_type e) (KeywordEntry.keyword e) resumeText with
      | Some form =>
          {| KeywordMatchDetail.weight := KeywordEntry.weight e;
             KeywordMatchDetail.keyword := KeywordEntry.keyword e;
             KeywordMatchDetail.match_type := KeywordEntry.match_type e;
             KeywordMatchDetail.matched_form_in_text := form |}
          :: matched P resumeText rest
      | None => matched P resumeText rest
      end
  end.

(** Modelled from the spec: the unmatched entries of a category. *)
Fixpoint missing (P : Policy) (resumeText : string) (entries : list KeywordEntry.t)
  : list MissingDetail.t :=
  match entries with
  | [] => []
  | e :: rest =>
      match find_keyword P (KeywordEntry.match_type e) (KeywordEntry.keyword e) resumeText with
      | Some _ => missing P resumeText rest
      | None =>
          {| MissingDetail.weight := KeywordEntry.weight e;
             MissingDetail.keyword := KeywordEntry.keyword e |}
          :: missing P resumeText rest
      end
  end.

(** Modelled from the spec: the contract
    [matchKeywords(categories, resumeText)] of section 4.5.  Every keyword
    adds its weight to the possible score, a matched keyword adds it to the
    achieved score as well, and the overall score is their ratio times
    100, 0 when nothing is possible. *)
Definition matchKeywords (P : Policy) (categories : list KeywordRuleCategory.t)
    (resumeText : string) : t :=
  let matched_by_category :=
    map (fun c => (KeywordRuleCategory.name c,
                   matched P resumeText (KeywordRuleCategory.entries c))) categories in
  let missing_by_category :=
    map (fun c => (KeywordRuleCategory.name c,
                   missing P resumeText (KeywordRuleCategory.entries c))) categories in
  let possible :=
    total (map (fun c => total (map KeywordEntry.weight (KeywordRuleCategory.entries c)))
               categories) in
  let achieved :=
    total (map (fun m => total (map KeywordMatchDetail.weight (snd m)))
               matched_by_category) in
  {| matched_details := matched_by_category;
     missing_details := missing_by_category;
     overall_match_score :=
       if Qeq_bool possible 0 then 0 else achieved / possible * 100;
     total_achieved_score := achieved;
     total_possible_score := possible |}.

End KeywordMatcher.

(** ** Statements used by the properties *)

(** [s] shows [q] rounded to two decimal places: an optional minus sign,
    at least one digit, a point and exactly two digits, denoting the
    hundredth nearest to [q]. *)
Definition two_decimal_places (q : Q) (s : string) : Prop :=
  exists a b n,
    s = ((if Qlt_le_dec q 0 then "-" else "") ++ a ++ "." ++ b)%string
    /\ a <> ""%string
    /\ all_digits a = true /\ all_digits b = true
    /\ String.length b = 2%nat
    /\ digits_value (a ++ b) = Some n
    /\ Qabs (inject_Z (Z.of_N n) / 100 - Qabs q) <= 1 # 200.

(** A percentage: a finite Number between -100 and 100. *)
Definition percentage (x : number) (q : Q) : Prop :=
  x = Finite q /\ -(100) <= q /\ q <= 100.

(** The job title of a row is text: its job_title field, when there is
    one, requires a string (or a falsy value, read as the empty string). *)
Definition text_job_title (row : MatchResultRecord.t) : Prop :=
  exists s, getJobTitle row = JString s.

(** A rule field as the overlay reads it: a non-null object with a
    ['data'] key. *)
Definition object_with_data (v : json) : Prop :=
  exists props d, v = JObject props /\ lookup "data" props = Some d.

(** The fields that enter the weighted score: those whose rule has a
    weightage above 0. *)
Definition weighted_fields (results : list (Rule.t * FieldResult.t))
  : list (Rule.t * FieldResult.t) :=
  filter (fun scored => (0 <? Rule.weightage (fst scored))%Z) results.

(** Sum of [score_i * weightage_i] over the given fields. *)
Definition weighted_score_sum (results : list (Rule.t * FieldResult.t)) : Q :=
  total (map (fun scored =>
                FieldResult.score (snd scored) * inject_Z (Rule.weightage (fst scored)))
             results).

(** Sum of the weightages of the given fields. *)
Definition weightage_sum (results : list (Rule.t * FieldResult.t)) : Z :=
  fold_right Z.add 0%Z (map (fun scored => Rule.weightage (fst scored)) results).

(** The value lies on the side of the threshold that the rule forbids. *)
Definition beyond (direction : Direction) (limit value : Q) : Prop :=
  match direction with
  | at_most => limit < value
  | at_least => value < limit
  end.

(** The four numeric outputs of the aggregator are 0. *)
Definition all_scores_zero (a : Aggregate.t) : Prop :=
  Aggregate.overall_score_weighted a == 0
  /\ Aggregate.overall_score_average_all a == 0
  /\ Aggregate.overall_score_average_non_zero a == 0
  /\ Aggregate.max_score a == 0.

(** Keyword weights are importance values: none is negative. *)
Definition keyword_weights_nonneg (categories : list KeywordRuleCategory.t) : Prop :=
  Forall (fun c => Forall (fun e => 0 <= KeywordEntry.weight e)
                     (KeywordRuleCategory.entries c))
         categories.

(** [best], at position [i] of [evaluated], has the highest score, and
    every earlier entry scores strictly less. *)
Definition first_maximum (evaluated : list CandidateSourceValue.t) (i : nat)
    (best : CandidateSourceValue.t) : Prop :=
  nth_error evaluated i = Some best
  /\ (forall j other, nth_error evaluated j = Some other ->
                      CandidateSourceValue.score other <= CandidateSourceValue.score best)
  /\ (forall j other, (j < i)%nat -> nth_error evaluated j = Some other ->
                      CandidateSourceValue.score other < CandidateSourceValue.score best).

(** What [sortedResults] compares a row by: the lower-cased job title
    for the job title column, the value of the column otherwise. *)
Definition sort_key (orderBy : OrderBy) (row : MatchResultRecord.t) : outcome primitive :=
  match orderBy with
  | by_jobTitle =>
      (title <- call_toLowerCase (getJobTitle row) ;; Returns (PString title))%outcome
  | _ => Returns (property orderBy row)
  end.

(** The number the comparison function returns for two keys. *)
Definition three_way (StringToNumber : string -> number) (order : Order)
    (compareA compareB : primitive) : Z :=
  if less_than StringToNumber compareB compareA
  then match order with asc => 1%Z | desc => (-1)%Z end
  else if less_than StringToNumber compareA compareB
  then match order with asc => (-1)%Z | desc => 1%Z end
  else 0%Z.

(** [a] may stand before [b] in the chosen direction. *)
Definition in_order {K : Type} (order : Order) (le : K -> K -> Prop) (a b : K) : Prop :=
  match order with
  | asc => le a b
  | desc => le b a
  end.

(** The keys of the rows are all text, or all finite numbers: the
    comparison function is then a consistent comparator. *)
Definition comparable_keys (orderBy : OrderBy) (rows : list MatchResultRecord.t) : Prop :=
  (exists key : MatchResultRecord.t -> string,
      forall row, In row rows -> sort_key orderBy row = Returns (PString (key row)))
  \/ (exists key : MatchResultRecord.t -> Q,
         forall row, In row rows ->
                     sort_key orderBy row = Returns (PNumber (Finite (key row)))).

(** The value of a finite Number (0 for the others). *)
Definition finite_value (x : number) : Q :=
  match x with
  | Finite q => q
  | _ => 0
  end.

(** The array behind an optional reference; nothing for a missing one. *)
Definition elements_of {A : Type} (h : Store.t A) (results : option Store.ref) : list A :=
  match results with
  | Some r => Store.read h r
  | None => []
  end.

(** The state after a sequence of events, from the initial state. *)
Definition after_events (events : list CandidateSearchEvent) : CandidateSearchState.t :=
  fold_left handleEvent events initialState.

(** [l1] is [l2] with some elements left out. *)
Inductive subsequence {A : Type} : list A -> list A -> Prop :=
| subsequence_nil : subsequence [] []
| subsequence_skip x l1 l2 : subsequence l1 l2 -> subsequence l1 (x :: l2)
| subsequence_take x l1 l2 : subsequence l1 l2 -> subsequence (x :: l1) (x :: l2).

(** The files handed to [onUpload], and the number of [onClose] calls. *)
Definition uploaded_files (calls : list DocxUploadCall) : list File.t :=
  flat_map (fun c => match c with onUpload file => [file] | _ => [] end) calls.

Definition close_count (calls : list DocxUploadCall) : nat :=
  List.length (filter (fun c => match c with onClose => true | _ => false end) calls).

(** The files the user chose, one per change of the input that carried
    a file. *)
Definition chosen_files (events : list DocxUploadEvent) : list File.t :=
  flat_map (fun ev => match ev with
                      | DocxFileChange (Some (file :: _)) => [file]
                      | _ => []
                      end) events.

(** The file chosen last, if any. *)
Definition last_chosen (events : list DocxUploadEvent) : option File.t :=
  hd_error (rev (chosen_files events)).

(** The file of a call made by FileUploadInput, if it carries one. *)
Definition file_of_call (c : FileUploadCall) : option File.t :=
  match c with
  | onFileSelect file => file
  | onUploadClick file => Some file
  end.

Definition resume_of_call (c : AnalyseResumeCall) : File.t :=
  match c with
  | uploadResumeApiv3 resume => resume
  end.

(** The form data after a sequence of change events, each the name of
    the input and the value typed, from the empty form. *)
Definition after_changes (events : list (RegisterField * string)) : RegisterFormData.t :=
  fold_left (fun formData ev => handleChange (fst ev) (snd ev) formData)
    events initialFormData.

(** A file, if there is one, has one of the given MIME types. *)
Definition of_type (types : list string) (file : option File.t) : Prop :=
  match file with
  | Some f => In (File.type f) types
  | None => True
  end.

Definition is_lower_alphanumeric (c : ascii) : bool :=
  let n := nat_of_ascii c in
  ((48 <=? n) && (n <=? 57) || (97 <=? n) && (n <=? 122))%nat.

Fixpoint all_chars (p : ascii -> bool) (s : string) : bool :=
  match s with
  | EmptyString => true
  | String c r => p c && all_chars p r
  end.

(** At most six characters, each a digit or a lower-case letter. *)
Definition organization_id_text (s : string) : Prop :=
  (String.length s <= 6)%nat /\ all_chars is_lower_alphanumeric s = true.

(** Text of ASCII characters.  On such text the characters of the model
    are the UTF-16 code units of the JavaScript string, in the same
    order, and [toLowerCase] is String.prototype.toLowerCase. *)
Definition ascii_text (s : string) : Prop :=
  all_chars (fun c => (nat_of_ascii c <? 128)%nat) s = true.

(** The value a field of the form holds. *)
Definition field_value (name : RegisterField) (formData : RegisterFormData.t) : string :=
  match name with
  | name_fullName => RegisterFormData.fullName formData
  | name_organizationName => RegisterFormData.organizationName formData
  | name_organizationId => RegisterFormData.organizationId formData
  | name_email => RegisterFormData.email formData
  | name_password => RegisterFormData.password formData
  | name_confirmPassword => RegisterFormData.confirmPassword formData
  end.

(** The property names of an object are distinct, as they are in every
    value JSON.parse returns. *)
Definition distinct_names (v : json) : Prop :=
  match v with
  | JObject props => NoDup (map fst props)
  | _ => True
  end.

(** The categories of a details record that have at least one item. *)
Definition categories_with_items
    (entries : list (string * option (list (option string))))
  : list (string * list (option string)) :=
  flat_map (fun entry =>
              match snd entry with
              | Some ((_ :: _) as items) => [(fst entry, items)]
              | _ => []
              end) entries.

(** ** Sample data *)

Definition sample_field (name : string) (score : Q) (req_data : json) : MatchResult.t :=
  {| MatchResult.field := name;
     MatchResult.score := Some (Finite score);
     MatchResult.confidence := Some (Finite 100);
     MatchResult.best_source_used := "summary";
     MatchResult.req_data := req_data;
     MatchResult.sources_evaluated :=
       Some [ {| SourceEvaluated.source_field := "summary";
                 SourceEvaluated.data := JNull;
                 SourceEvaluated.score := Some (Finite score);
                 SourceEvaluated.confidence := Some (Finite 100) |} ] |}.

Definition sample_response (title : json) : MatchResultResponse.t :=
  {| MatchResultResponse.results :=
       Some [ sample_field "job_title" 100 title;
              sample_field "required_qualifications" 0 (JArray [JString "BSc"]) ];
     MatchResultResponse.overall_score_weighted := Some (Finite (625 # 10));
     MatchResultResponse.overall_score_average_all := Some (Finite 50);
     MatchResultResponse.overall_score_average_non_zero := Some (Finite 100);
     MatchResultResponse.max_score := Some (Finite 100);
     MatchResultResponse.max_score_field := "job_title" |}.

Definition sample_record (id name : string) (title : json) : MatchResultRecord.t :=
  {| MatchResultRecord.id := id;
     MatchResultRecord.jobId := Finite 7;
     MatchResultRecord.profileId := Finite 42;
     MatchResultRecord.candidateName := name;
     MatchResultRecord.overallScore := Finite (625 # 10);
     MatchResultRecord.matchResultsJson := Some (sample_response title);
     MatchResultRecord.organizationId := "org001";
     MatchResultRecord.agencyId := None;
     MatchResultRecord.createdBy := "recruiter";
     MatchResultRecord.createdAt := "2025-01-01" |}.

Definition sample_scored_record (id name : string) (overallScore : Q)
  : MatchResultRecord.t :=
  {| MatchResultRecord.id := id;
     MatchResultRecord.jobId := Finite 7;
     MatchResultRecord.profileId := Finite 42;
     MatchResultRecord.candidateName := name;
     MatchResultRecord.overallScore := Finite overallScore;
     MatchResultRecord.matchResultsJson := None;
     MatchResultRecord.organizationId := "org001";
     MatchResultRecord.agencyId := None;
     MatchResultRecord.createdBy := "recruiter";
     MatchResultRecord.createdAt := "2025-01-01" |}.

(** A policy: ten points per unit of deviation, penalties down to -100,
    no credit outside a range, similarity by equality, and keywords
    searched as substrings. *)
Definition sample_policy : Policy :=
  {| penalty_unit := fun _ => 10;
     penalty_floor := -(100);
     range_partial := fun _ _ _ => 0;
     similarity := fun a b => if (a =? b)%string then 1 else 0;
     fallback_confidence := fun _ => 50;
     find_keyword := fun _ keyword text =>
       match index 0 keyword text with
       | Some _ => Some keyword
       | None => None
       end |}.

Definition sample_categories : list KeywordRuleCategory.t :=
  [ {| KeywordRuleCategory.name := "languages";
       KeywordRuleCategory.entries :=
         [ {| KeywordEntry.keyword := "java"; KeywordEntry.weight := 3;
              KeywordEntry.match_type := exact_token |};
           {| KeywordEntry.keyword := "rust"; KeywordEntry.weight := 1;
              KeywordEntry.match_type := exact_token |} ] |} ]%string.

(** At most two organization switches, read from the profile and, failing
    that, from the summary. *)
Definition sample_switch_rule (sources : list string) : Rule.t :=
  {| Rule.field := "organization_switches";
     Rule.matchreq := MANDATORY;
     Rule.type := NEGATIVE_CONSTRAINT;
     Rule.weightage := 3%Z;
     Rule.data := Threshold at_most 2;
     Rule.profiledatasource := sources;
     Rule.sourcecondition := None;
     Rule.fromsource := None |}.

(** The same constraint under another weightage. *)
Definition sample_switch_rule_weighted (weightage : Z) (sources : list string) : Rule.t :=
  {| Rule.field := "organization_switches";
     Rule.matchreq := MANDATORY;
     Rule.type := NEGATIVE_CONSTRAINT;
     Rule.weightage := weightage;
     Rule.data := Threshold at_most 2;
     Rule.profiledatasource := sources;
     Rule.sourcecondition := None;
     Rule.fromsource := None |}.

(** At least five years of experience. *)
Definition sample_experience_rule (sources : list string) : Rule.t :=
  {| Rule.field := "years_of_experience";
     Rule.matchreq := OPTIONAL;
     Rule.type := NEGATIVE_CONSTRAINT;
     Rule.weightage := 2%Z;
     Rule.data := Threshold at_least 5;
     Rule.profiledatasource := sources;
     Rule.sourcecondition := None;
     Rule.fromsource := None |}.

(** A policy whose penalty unit is proportional to the weightage: five
    points per unit of deviation and of weightage. *)
Definition proportional_policy : Policy :=
  {| penalty_unit := fun w => 5 * inject_Z (Z.max 0 w);
     penalty_floor := -(100);
     range_partial := fun _ _ _ => 0;
     similarity := fun a b => if (a =? b)%string then 1 else 0;
     fallback_confidence := fun _ => 50;
     find_keyword := fun _ keyword text =>
       match index 0 keyword text with
       | Some _ => Some keyword
       | None => None
       end |}.

Definition sample_scored (name : string) (weightage : Z) (score : Q)
  : Rule.t * FieldResult.t :=
  ({| Rule.field := name;
      Rule.matchreq := OPTIONAL;
      Rule.type := EXACT;
      Rule.weightage := weightage;
      Rule.data := Scalar "Senior Engineer";
      Rule.profiledatasource := ["title"];
      Rule.sourcecondition := None;
      Rule.fromsource := None |},
   {| FieldResult.field := name;
      FieldResult.score := score;
      FieldResult.confidence := 100;
      FieldResult.best_source_used := "title";
      FieldResult.req_data := Scalar "Senior Engineer";
      FieldResult.sources_evaluated := [] |})%string.

(** * Properties *)

(** ** The models on small inputs *)

Example toFixed_rounds_half_up :
  toFixed (fun _ => "NaN") 2 (Finite (1005 # 1000)) = "1.01"%string
  /\ toFixed (fun _ => "NaN") 2 (Finite (625 # 10)) = "62.50"%string
  /\ toFixed (fun _ => "NaN") 2 (Finite (-(3 # 1000))) = "-0.00"%string
  /\ toFixed (fun _ => "NaN") 2 (Finite 0) = "0.00"%string.
Proof. repeat split. Qed.

Example dialog_of_sample_response :
  match MatchResultDialog (fun _ => "NaN"%string)
          (Some (sample_response (JString "Senior Engineer"))) with
  | Dialog.MatchAnalysisReport overall breakdown =>
      Dialog.weighted_score overall = "62.50%"%string
      /\ map Dialog.summary_field breakdown
         = ["job_title"; "required_qualifications"]%string
      /\ map Dialog.summary_score breakdown = ["100.00"; "0.00"]%string
      /\ map Dialog.required_data breakdown = ["Senior Engineer"; "BSc"]%string
  | Dialog.NoMatchResults _ _ => False
  end.
Proof. repeat split. Qed.

Example sorted_by_job_title :
  let rows := [ sample_record "r1" "Ann" (JString "Engineer");
                sample_record "r2" "Bob" (JString "analyst") ]%string in
  sortedResults (fun _ => NaN) asc by_jobTitle (Some 0%nat) [rows]
  = (Returns 1%nat, [rows; rev rows])
  /\ sortedResults (fun _ => NaN) desc by_jobTitle (Some 0%nat) [rows]
     = (Returns 1%nat, [rows; rows]).
Proof. split; reflexivity. Qed.

Example rule_fields_of_sample :
  let rule := JObject [("data", JString "java"); ("weightage", JNumber (Finite 3))]%string in
  let ruleData :=
    JObject [("job_title", rule); ("version", JNumber (Finite 1));
             ("keywordmatch", JObject [("languages", rule); ("tools", JNull)])]%string in
  map fst (getGeneralRuleFields ruleData) = ["job_title"]%string
  /\ map fst (getKeywordMatchFields ruleData) = ["languages"]%string.
Proof. split; reflexivity. Qed.

Example weighted_mean_of_sample :
  exists a,
    Aggregator.aggregate
      [ sample_scored "job_title" 5 100; sample_scored "yoe" 3 0;
        sample_scored "notes" 0 40 ]%string
    = Returns a
    /\ Aggregate.overall_score_weighted a == 625 # 10
    /\ Aggregate.overall_score_average_all a == 140 # 3
    /\ Aggregate.overall_score_average_non_zero a == 70
    /\ Aggregate.max_score a == 100
    /\ Aggregate.max_score_field a = "job_title"%string.
Proof. eexists. split; [reflexivity|]. repeat split. Qed.

(** Without a field of weightage above 0 every aggregate score takes the
    default 0, whatever the scores. *)
Example no_positive_weightage_defaults_to_zero :
  Aggregator.aggregate [ sample_scored "notes" 0 40 ]%string
  = Returns Aggregator.all_zero.
Proof. reflexivity. Qed.

Example switches_at_and_beyond_the_limit :
  FieldResult.score
    (score_rule sample_policy [("organization_switches", Quantity 2)]%string
       (sample_switch_rule ["organization_switches"]%string)) == 0
  /\ FieldResult.score
       (score_rule sample_policy [("organization_switches", Quantity 3)]%string
          (sample_switch_rule ["organization_switches"]%string)) == -(10).
Proof. split; reflexivity. Qed.

(** With several sources the highest individual score wins: a fallback
    source without data, recorded with score 0, is preferred to a source
    that violates the constraint. *)
Example source_without_data_outranks_penalty :
  let result :=
    score_rule sample_policy [("organization_switches", Quantity 3)]%string
      (sample_switch_rule ["organization_switches"; "summary"]%string) in
  map CandidateSourceValue.score (FieldResult.sources_evaluated result) = [-(10); 0]
  /\ FieldResult.best_source_used result = "summary"%string
  /\ FieldResult.score result = 0.
Proof. repeat split. Qed.

Example keywords_of_sample :
  let r := KeywordMatcher.matchKeywords sample_policy sample_categories
             "java and sql developer" in
  KeywordMatcher.total_achieved_score r == 3
  /\ KeywordMatcher.total_possible_score r == 4
  /\ KeywordMatcher.overall_match_score r == 75.
Proof. repeat split. Qed.

(** ** Strings and digits *)

Lemma length_append (s t : string) :
  String.length (s ++ t)%string = (String.length s + String.length t)%nat.
Proof. induction s as [|c s IH]; simpl; [reflexivity | now rewrite IH]. Qed.

Lemma all_digits_append (s t : string) :
  all_digits (s ++ t) = all_digits s && all_digits t.
Proof.
  induction s as [|c s IH]; simpl; [reflexivity|].
  now rewrite IH, andb_assoc.
Qed.

Lemma length_repeat_char c n : String.length (repeat_char c n) = n.
Proof. induction n; simpl; congruence. Qed.

Lemma all_digits_zeros n : all_digits (repeat_char "0" n) = true.
Proof. induction n; simpl; auto. Qed.

Lemma all_digits_string_of_uint d :
  all_digits (NilEmpty.string_of_uint d) = true.
Proof. induction d; simpl; auto. Qed.

Lemma all_digits_decimal_digits n : all_digits (decimal_digits n) = true.
Proof. apply all_digits_string_of_uint. Qed.

Lemma digits_value_decimal_digits n : digits_value (decimal_digits n) = Some n.
Proof.
  unfold digits_value, decimal_digits.
  rewrite NilEmpty.usu. simpl. f_equal. apply DecimalN.Unsigned.of_to.
Qed.

Lemma digits_value_zeros n s :
  digits_value (repeat_char "0" n ++ s) = digits_value s.
Proof.
  induction n as [|n IH]; simpl; [reflexivity|].
  unfold digits_value in *. simpl.
  destruct (NilEmpty.uint_of_string (repeat_char "0" n ++ s)) as [d|];
    destruct (NilEmpty.uint_of_string s) as [d'|]; simpl in *; congruence.
Qed.

Lemma substring_split n s :
  (n <= String.length s)%nat ->
  (substring 0 n s ++ substring n (String.length s - n) s)%string = s.
Proof.
  revert s. induction n as [|n IH]; intros s Hn.
  - simpl. rewrite Nat.sub_0_r.
    destruct s as [|c s]; simpl; [reflexivity|].
    f_equal. clear. induction s as [|d s IH]; simpl; [reflexivity | now rewrite IH].
  - destruct s as [|c s]; simpl in *; [lia|].
    f_equal. apply IH. lia.
Qed.

Lemma length_substring n m s :
  (n + m <= String.length s)%nat -> String.length (substring n m s) = m.
Proof.
  revert m s. induction n as [|n IH]; intros m s H.
  - revert s H. induction m as [|m IHm]; intros s H.
    + destruct s; reflexivity.
    + destruct s as [|c s]; simpl in *; [lia|]. f_equal. apply IHm. lia.
  - destruct s as [|c s]; simpl in *; [lia|]. apply IH. lia.
Qed.

(** Inserting the decimal point keeps the digits, leaves [f] of them after
    the point and at least one before. *)
Lemma insert_point_shape f m :
  (0 < f)%nat -> all_digits m = true ->
  exists a b,
    insert_point f m = (a ++ "." ++ b)%string
    /\ a <> ""%string
    /\ all_digits a = true /\ all_digits b = true
    /\ String.length b = f
    /\ digits_value (a ++ b) = digits_value m.
Proof.
  intros Hf Hm. unfold insert_point.
  destruct f as [|f']; [lia|]. set (f := S f') in *.
  set (k := String.length m).
  set (m' := if (k <=? f)%nat then (repeat_char "0" (f + 1 - k) ++ m)%string else m).
  set (k' := if (k <=? f)%nat then (f + 1)%nat else k).
  assert (Hlen : String.length m' = k').
  { unfold m', k'. destruct (k <=? f)%nat eqn:E.
    - apply Nat.leb_le in E. rewrite length_append, length_repeat_char.
      fold k. lia.
    - reflexivity. }
  assert (Hk' : (f < k')%nat).
  { unfold k'. destruct (k <=? f)%nat eqn:E; [lia|]. apply Nat.leb_gt in E. lia. }
  assert (Hd : all_digits m' = true).
  { unfold m'. destruct (k <=? f)%nat; [|assumption].
    now rewrite all_digits_append, all_digits_zeros, Hm. }
  assert (Hv : digits_value m' = digits_value m).
  { unfold m'. destruct (k <=? f)%nat; [|reflexivity]. apply digits_value_zeros. }
  assert (Hsplit : (substring 0 (k' - f) m' ++ substring (k' - f) f m')%string = m').
  { pose proof (substring_split (k' - f) m') as Hs.
    replace (String.length m' - (k' - f))%nat with f in Hs by lia.
    apply Hs. lia. }
  exists (substring 0 (k' - f) m'), (substring (k' - f) f m').
  rewrite <- Hsplit in Hd. rewrite all_digits_append in Hd.
  apply andb_true_iff in Hd as [Ha Hb].
  repeat split; try assumption.
  - intros E. apply (f_equal String.length) in E.
    rewrite length_substring in E by lia. simpl in E. lia.
  - apply length_substring. lia.
  - now rewrite Hsplit.
Qed.

(** ** Number.prototype.toFixed *)

Lemma nearest_scaled_close f x :
  0 <= x ->
  let n := nearest_scaled f x in
  (0 <= n)%Z
  /\ x * inject_Z (10 ^ Z.of_nat f) - (1 # 2) < inject_Z n
  /\ inject_Z n <= x * inject_Z (10 ^ Z.of_nat f) + (1 # 2).
Proof.
  intros Hx n. unfold n, nearest_scaled.
  set (y := x * inject_Z (10 ^ Z.of_nat f)).
  assert (Hy : 0 <= y).
  { unfold y. apply Qmult_le_0_compat; [assumption|].
    change 0 with (inject_Z 0). rewrite <- Zle_Qle. apply Z.pow_nonneg. lia. }
  pose proof (Qfloor_le (y + (1 # 2))) as Hle.
  pose proof (Qlt_floor (y + (1 # 2))) as Hlt.
  rewrite inject_Z_plus in Hlt. change (inject_Z 1) with 1 in Hlt.
  repeat split.
  - change 0%Z with (Qfloor 0). apply Qfloor_resp_le. lra.
  - lra.
  - lra.
Qed.

Lemma toFixed_two_decimal_places Number_toString q :
  Qabs q < inject_Z (10 ^ 21) ->
  two_decimal_places q (toFixed Number_toString 2 (Finite q)).
Proof.
  intros Hq. unfold toFixed.
  set (ax := if Qlt_le_dec q 0 then - q else q).
  assert (Hax : ax == Qabs q).
  { unfold ax. destruct (Qlt_le_dec q 0) as [Hneg|Hpos].
    - symmetry. apply Qabs_neg. lra.
    - symmetry. apply Qabs_pos. assumption. }
  assert (Hax0 : 0 <= ax) by (rewrite Hax; apply Qabs_nonneg).
  destruct (Qlt_le_dec ax (inject_Z (10 ^ 21))) as [_|Hbig];
    [|rewrite Hax in Hbig; lra].
  destruct (nearest_scaled_close 2 ax Hax0) as (Hn0 & Hlo & Hhi).
  set (n := nearest_scaled 2 ax) in *.
  destruct (insert_point_shape 2 (decimal_digits (Z.to_N n)))
    as (a & b & Hshape & Ha & Hda & Hdb & Hlen & Hval);
    [lia | apply all_digits_decimal_digits |].
  exists a, b, (Z.to_N n). rewrite Hshape.
  repeat split; try assumption.
  - rewrite Hval. apply digits_value_decimal_digits.
  - rewrite Z2N.id by assumption. rewrite <- Hax.
    change (inject_Z (10 ^ Z.of_nat 2)) with 100 in Hlo, Hhi.
    unfold Qdiv. change (/ 100) with (1 # 100).
    apply Qabs_Qle_condition. split; lra.
Qed.

(** ** Indexed maps *)

Lemma length_mapi_from {A B : Type} (f : nat -> A -> B) l k :
  List.length (mapi_from k f l) = List.length l.
Proof. revert k. induction l as [|x l IH]; intros k; simpl; [reflexivity | now rewrite IH]. Qed.

Lemma nth_error_mapi_from {A B : Type} (f : nat -> A -> B) l k i :
  nth_error (mapi_from k f l) i = option_map (f (k + i)%nat) (nth_error l i).
Proof.
  revert k i. induction l as [|x l IH]; intros k [|i]; simpl; try reflexivity.
  - now rewrite Nat.add_0_r.
  - rewrite IH. now replace (S k + i)%nat with (k + S i)%nat by lia.
Qed.

Lemma length_mapi {A B : Type} (f : nat -> A -> B) l :
  List.length (mapi f l) = List.length l.
Proof. apply length_mapi_from. Qed.

Lemma nth_error_mapi {A B : Type} (f : nat -> A -> B) l i :
  nth_error (mapi f l) i = option_map (f i) (nth_error l i).
Proof. unfold mapi. now rewrite nth_error_mapi_from. Qed.

(** ** The match-result dialog *)

Lemma percentage_small x q : percentage x q -> Qabs q < inject_Z (10 ^ 21).
Proof.
  intros (_ & Hlo & Hhi).
  apply Qle_lt_trans with (y := 100).
  - apply Qabs_Qle_condition. split; assumption.
  - reflexivity.
Qed.

Lemma percent_or_na_two_decimals Number_toString x q :
  percentage x q ->
  exists s, percent_or_na Number_toString (Some x) = (s ++ "%")%string
            /\ two_decimal_places q s.
Proof.
  intros Hp. pose proof (percentage_small x q Hp) as Hs. destruct Hp as (-> & _).
  eexists. split; [reflexivity|]. now apply toFixed_two_decimal_places.
Qed.

Lemma fixed_or_nothing_two_decimals Number_toString x q :
  percentage x q ->
  two_decimal_places q (fixed_or_nothing Number_toString (Some x)).
Proof.
  intros Hp. pose proof (percentage_small x q Hp) as Hs. destruct Hp as (-> & _).
  now apply toFixed_two_decimal_places.
Qed.

(** C10.  When the match response is absent, or its results are missing
    or null, the dialog is the 'No Match Results Available' fallback; the
    results are not read, and the dialog is defined on every input. *)
Theorem MatchResultDialog_fallback_when_results_missing :
  forall Number_toString (matchResponse : option MatchResultResponse.t),
    (matchResponse = None
     \/ exists response, matchResponse = Some response
                         /\ MatchResultResponse.results response = None) ->
    MatchResultDialog Number_toString matchResponse
    = Dialog.NoMatchResults "No Match Results Available"
        "Match results could not be loaded or are missing.".
Proof.
  intros N m [-> | (response & -> & Hr)]; simpl; [reflexivity|].
  now rewrite Hr.
Qed.

Lemma MatchResultDialog_fallback_when_results_missing_witness :
  MatchResultDialog (fun _ => "NaN"%string) None
  = Dialog.NoMatchResults "No Match Results Available"
      "Match results could not be loaded or are missing.".
Proof.
  apply MatchResultDialog_fallback_when_results_missing. left. reflexivity.
Defined.

(** C7.  When the results list is present, the dialog is the report and
    its field-by-field breakdown has one entry per element of results, in
    order, whatever the score of the field; no rule requirement is
    consulted. *)
Theorem MatchResultDialog_renders_every_result :
  forall Number_toString (response : MatchResultResponse.t) results,
    MatchResultResponse.results response = Some results ->
    exists overall breakdown,
      MatchResultDialog Number_toString (Some response)
      = Dialog.MatchAnalysisReport overall breakdown
      /\ List.length breakdown = List.length results
      /\ forall i result,
           nth_error results i = Some result ->
           exists entry,
             nth_error breakdown i = Some entry
             /\ entry = accordion Number_toString i result
             /\ Dialog.key entry = i
             /\ Dialog.summary_field entry = MatchResult.field result.
Proof.
  intros N response results Hr. simpl. rewrite Hr.
  eexists _, _. split; [reflexivity|]. split; [apply length_mapi|].
  intros i result Hi. exists (accordion N i result).
  rewrite nth_error_mapi, Hi. simpl. repeat split.
Qed.

Lemma MatchResultDialog_renders_every_result_witness :
  MatchResultResponse.results (sample_response (JString "Senior Engineer"))
  = Some [ sample_field "job_title" 100 (JString "Senior Engineer");
           sample_field "required_qualifications" 0 (JArray [JString "BSc"]) ]%string
  /\ exists overall breakdown,
       MatchResultDialog (fun _ => "NaN"%string)
         (Some (sample_response (JString "Senior Engineer")))
       = Dialog.MatchAnalysisReport overall breakdown
       /\ List.length breakdown = 2%nat.
Proof.
  split; [reflexivity|].
  destruct (MatchResultDialog_renders_every_result (fun _ => "NaN"%string)
              (sample_response (JString "Senior Engineer")) _ eq_refl)
    as (overall & breakdown & Hview & Hlen & _).
  exists overall, breakdown. split; [exact Hview | exact Hlen].
Defined.

(** C6.  Every percentage shown from a match result is rendered with
    exactly two decimal places, rounded to the nearest hundredth: the four
    overall scores, the score and confidence of each field and of each
    evaluated source in the dialog, the overall score of a candidate in
    the search table, and the keyword overall match score. *)
Theorem percentages_rendered_with_two_decimals :
  forall Number_toString (x : number) (q : Q),
    percentage x q ->
    (forall response results,
        MatchResultResponse.results response = Some results ->
        exists overall breakdown,
          MatchResultDialog Number_toString (Some response)
          = Dialog.MatchAnalysisReport overall breakdown
          /\ (MatchResultResponse.overall_score_weighted response = Some x ->
              exists s, Dialog.weighted_score overall = (s ++ "%")%string
                        /\ two_decimal_places q s)
          /\ (MatchResultResponse.overall_score_average_all response = Some x ->
              exists s, Dialog.average_all overall = (s ++ "%")%string
                        /\ two_decimal_places q s)
          /\ (MatchResultResponse.overall_score_average_non_zero response = Some x ->
              exists s, Dialog.average_non_zero overall = (s ++ "%")%string
                        /\ two_decimal_places q s)
          /\ (MatchResultResponse.max_score response = Some x ->
              exists s, Dialog.max_score overall = (s ++ "%")%string
                        /\ two_decimal_places q s)
          /\ (forall i result,
                 nth_error results i = Some result ->
                 exists entry,
                   nth_error breakdown i = Some entry
                   /\ (MatchResult.score result = Some x ->
                       two_decimal_places q (Dialog.summary_score entry))
                   /\ (MatchResult.confidence result = Some x ->
                       two_decimal_places q (Dialog.summary_confidence entry))
                   /\ (forall sources j src,
                          MatchResult.sources_evaluated result = Some sources ->
                          nth_error sources j = Some src ->
                          exists rows row,
                            Dialog.sources_table entry = Some rows
                            /\ nth_error rows j = Some row
                            /\ (SourceEvaluated.score src = Some x ->
                                two_decimal_places q (Dialog.cell_score row))
                            /\ (SourceEvaluated.confidence src = Some x ->
                                two_decimal_places q (Dialog.cell_confidence row)))))
    /\ (forall row,
           MatchResultRecord.overallScore row = x ->
           two_decimal_places q (cell_overallScore (table_row Number_toString row)))
    /\ (exists s, keyword_overall_cell Number_toString (Some x) = (s ++ "%")%string
                  /\ two_decimal_places q s).
Proof.
  intros N x q Hp. split; [|split].
  - intros response results Hr. simpl. rewrite Hr.
    eexists _, _. split; [reflexivity|]. simpl.
    repeat split;
      try (intros ->; now apply percent_or_na_two_decimals).
    intros i result Hi. exists (accordion N i result).
    rewrite nth_error_mapi, Hi. split; [reflexivity|]. simpl.
    repeat split; try (intros ->; now apply fixed_or_nothing_two_decimals).
    intros sources j src Hs Hj. rewrite Hs.
    destruct sources as [|s0 rest]; [destruct j; discriminate|].
    exists (mapi (source_row N) (s0 :: rest)), (source_row N j src).
    split; [reflexivity|].
    rewrite nth_error_mapi, Hj. split; [reflexivity|].
    split; intros Hx; simpl; rewrite Hx;
      now apply fixed_or_nothing_two_decimals.
  - intros row Hrow. simpl. rewrite Hrow.
    pose proof (percentage_small x q Hp) as Hs. destruct Hp as (-> & _).
    now apply toFixed_two_decimal_places.
  - pose proof (percentage_small x q Hp) as Hs. destruct Hp as (-> & _).
    eexists. split; [reflexivity|]. now apply toFixed_two_decimal_places.
Qed.

Lemma sample_percentage : percentage (Finite (625 # 10)) (625 # 10).
Proof. repeat split; unfold Qle; simpl; lia. Defined.

Lemma percentages_rendered_with_two_decimals_witness :
  percentage (Finite (625 # 10)) (625 # 10)
  /\ exists s,
       keyword_overall_cell (fun _ => "NaN"%string) (Some (Finite (625 # 10)))
       = (s ++ "%")%string
       /\ two_decimal_places (625 # 10) s.
Proof.
  split; [exact sample_percentage|].
  exact (proj2 (proj2 (percentages_rendered_with_two_decimals
                         (fun _ => "NaN"%string) _ _ sample_percentage))).
Defined.

(** ** The rule overlay *)

Lemma In_mapi_from {A B : Type} (f : nat -> A -> B) l k y :
  In y (mapi_from k f l) -> exists i x, In x l /\ y = f i x.
Proof.
  revert k. induction l as [|x l IH]; intros k; simpl; [tauto|].
  intros [<- | H].
  - exists k, x. auto.
  - destruct (IH _ H) as (i & x' & Hin & ->). exists i, x'. auto.
Qed.

(** The value of an entry sits right below the node the entries were
    taken from, under the key of the entry. *)
Lemma Object_entries_path n key value :
  In (key, value) (Object_entries n) ->
  node_path value = (node_path n ++ [key])%list.
Proof.
  unfold Object_entries. destruct (node_value n) as [| | |str|items|props]; simpl; try tauto.
  - intros H. apply In_mapi_from in H as (i & c & _ & E).
    injection E as Ek Ev. subst. reflexivity.
  - intros H. apply In_mapi_from in H as (i & c & _ & E).
    injection E as Ek Ev. subst. reflexivity.
  - intros H. apply in_map_iff in H as ([k v] & E & _).
    injection E as Ek Ev. subst. reflexivity.
Qed.

Lemma Object_entries_falsy v :
  truthy v = false -> Object_entries (root v) = [].
Proof.
  unfold Object_entries. destruct v as [| | |str| |]; simpl; try reflexivity; try discriminate.
  destruct str; [reflexivity | discriminate].
Qed.

Lemma general_filter_spec key (value : node) :
  typeof_object (node_value value)
  && negb (is_null (node_value value))
  && has_property "data" (node_value value)
  && negb (key =? "keywordmatch")%string = true
  <-> object_with_data (node_value value) /\ key <> "keywordmatch"%string.
Proof.
  rewrite !andb_true_iff, !negb_true_iff, String.eqb_neq.
  split.
  - intros [[[_ _] Hd] Hk]. split; [|assumption].
    destruct (node_value value) as [| | | | |props]; try discriminate.
    simpl in Hd. destruct (lookup "data" props) as [d|] eqn:E; [|discriminate].
    now exists props, d.
  - intros [(props & d & -> & Hd) Hk]. simpl. rewrite Hd. auto.
Qed.

Lemma getGeneralRuleFields_spec ruleData key value :
  In (key, value) (getGeneralRuleFields ruleData)
  <-> In (key, value) (Object_entries (root ruleData))
      /\ object_with_data (node_value value)
      /\ key <> "keywordmatch"%string.
Proof.
  unfold getGeneralRuleFields.
  destruct (truthy ruleData) eqn:Ht; simpl.
  - rewrite filter_In. now rewrite general_filter_spec.
  - rewrite Object_entries_falsy by assumption. simpl. tauto.
Qed.

Lemma getKeywordMatchFields_spec ruleData key value :
  In (key, value) (getKeywordMatchFields ruleData) ->
  node_value value <> JNull
  /\ exists group,
       get_property ruleData "keywordmatch" = Some group
       /\ In (key, value) (Object_entries (child (root ruleData) "keywordmatch" group))
       /\ node_path value = ["keywordmatch"; key]%string.
Proof.
  unfold getKeywordMatchFields.
  destruct (truthy ruleData); simpl; [|tauto].
  destruct (get_property ruleData "keywordmatch") as [group|]; [|simpl; tauto].
  destruct (truthy group); simpl; [|tauto].
  rewrite filter_In. simpl. intros [Hin Hnn]. split.
  - intros E. rewrite E in Hnn. discriminate.
  - exists group. repeat split; try assumption.
    now apply Object_entries_path in Hin.
Qed.

(** C9.  The general rule fields are exactly the entries of the rule data
    whose value is a non-null object with a ['data'] key and whose key is
    not ['keywordmatch']; the keyword match fields are non-null entries
    nested under ['keywordmatch']; so no value is returned by both, and
    no general entry is the keywordmatch group itself. *)
Theorem rule_fields_general_and_keyword_disjoint :
  forall ruleData : json,
    (forall key value,
        In (key, value) (getGeneralRuleFields ruleData)
        <-> In (key, value) (Object_entries (root ruleData))
            /\ object_with_data (node_value value)
            /\ key <> "keywordmatch"%string)
    /\ (forall key value,
           In (key, value) (getKeywordMatchFields ruleData) ->
           node_value value <> JNull
           /\ exists group,
                get_property ruleData "keywordmatch" = Some group
                /\ In (key, value)
                     (Object_entries (child (root ruleData) "keywordmatch" group))
                /\ node_path value = ["keywordmatch"; key]%string)
    /\ (forall general keyword,
           In general (getGeneralRuleFields ruleData) ->
           In keyword (getKeywordMatchFields ruleData) ->
           general <> keyword /\ snd general <> snd keyword)
    /\ (forall key value,
           In (key, value) (getGeneralRuleFields ruleData) ->
           key <> "keywordmatch"%string
           /\ node_path value <> ["keywordmatch"]%string).
Proof.
  intros ruleData.
  split; [apply getGeneralRuleFields_spec|].
  split; [apply getKeywordMatchFields_spec|].
  split.
  - intros [k1 v1] [k2 v2] Hg Hk.
    apply getGeneralRuleFields_spec in Hg as (Hin & _ & _).
    apply Object_entries_path in Hin. simpl in Hin.
    apply getKeywordMatchFields_spec in Hk as (_ & _ & _ & _ & Hp).
    assert (Hne : v1 <> v2) by (intros ->; congruence).
    split; [intros [= _ E]; now apply Hne | exact Hne].
  - intros key value Hg.
    apply getGeneralRuleFields_spec in Hg as (Hin & _ & Hk).
    apply Object_entries_path in Hin. simpl in Hin.
    split; [assumption|]. rewrite Hin. intros [= E]. now apply Hk.
Qed.

(** Disjointness is about places in the rule document: the same key with
    the same contents may be configured both as a general rule and as a
    keyword rule, and the two entries remain distinct. *)
Example same_contents_at_two_places :
  let rule := JObject [("data", JString "java")]%string in
  let ruleData := JObject [("skills", rule); ("keywordmatch", JObject [("skills", rule)])]%string in
  map (fun e => (fst e, node_value (snd e))) (getGeneralRuleFields ruleData)
  = map (fun e => (fst e, node_value (snd e))) (getKeywordMatchFields ruleData)
  /\ map (fun e => node_path (snd e)) (getGeneralRuleFields ruleData) = [["skills"]]%string
  /\ map (fun e => node_path (snd e)) (getKeywordMatchFields ruleData)
     = [["keywordmatch"; "skills"]]%string.
Proof. repeat split. Qed.

(** ** The array store *)

Lemma read_alloc_old {A : Type} (h : Store.t A) l r :
  (r < List.length h)%nat -> Store.read (h ++ [l])%list r = Store.read h r.
Proof. intros Hr. unfold Store.read. now rewrite app_nth1. Qed.

Lemma read_alloc_new {A : Type} (h : Store.t A) l :
  Store.read (h ++ [l])%list (List.length h) = l.
Proof. unfold Store.read. rewrite app_nth2, Nat.sub_diag by lia. reflexivity. Qed.

Lemma write_alloc_new {A : Type} (h : Store.t A) l l' :
  Store.write (List.length h) l' (h ++ [l])%list = (h ++ [l'])%list.
Proof. induction h as [|a h IH]; simpl; [reflexivity | now rewrite IH]. Qed.

(** ** Array.prototype.sort *)

Section SortFacts.

Context {A : Type} (comparefn : A -> A -> outcome Z).

Lemma insert_permutation x sorted l :
  Store.insert comparefn x sorted = Returns l -> Permutation (x :: sorted) l.
Proof.
  revert l. induction sorted as [|y rest IH]; intros l; simpl.
  - intros [= <-]. apply Permutation_refl.
  - destruct (comparefn x y) as [c|e]; simpl; [|discriminate].
    destruct (0 <? c)%Z.
    + destruct (Store.insert comparefn x rest) as [r|e]; simpl; [|discriminate].
      intros [= <-]. eapply perm_trans; [apply perm_swap|].
      apply perm_skip. now apply IH.
    + intros [= <-]. apply Permutation_refl.
Qed.

Lemma sort_list_permutation l l' :
  Store.sort_list comparefn l = Returns l' -> Permutation l l'.
Proof.
  revert l'. induction l as [|x rest IH]; intros l'; simpl.
  - intros [= <-]. apply perm_nil.
  - destruct (Store.sort_list comparefn rest) as [s|e]; simpl; [|discriminate].
    intros H. apply insert_permutation in H.
    eapply perm_trans; [apply perm_skip, IH; reflexivity | exact H].
Qed.

(** The sort returns as soon as the comparison returns on the elements
    it is given. *)
Variable comparable : A -> Prop.
Hypothesis comparefn_returns :
  forall a b, comparable a -> comparable b -> exists c, comparefn a b = Returns c.

Lemma insert_returns x sorted :
  comparable x -> Forall comparable sorted ->
  exists l, Store.insert comparefn x sorted = Returns l.
Proof.
  intros Hx Hs. induction Hs as [|y rest Hy _ (r & IH)]; simpl; [eauto|].
  destruct (comparefn_returns x y Hx Hy) as (c & ->). simpl.
  destruct (0 <? c)%Z; [rewrite IH; simpl|]; eauto.
Qed.

Lemma sort_list_returns l :
  Forall comparable l -> exists l', Store.sort_list comparefn l = Returns l'.
Proof.
  induction 1 as [|x rest Hx Hrest (s & IH)]; simpl; [eauto|].
  rewrite IH. simpl. apply insert_returns; [assumption|].
  apply sort_list_permutation in IH.
  eapply Permutation_Forall; eassumption.
Qed.

End SortFacts.

(** ** The candidate-search table *)

Section SortedResults.

Variable StringToNumber : string -> number.
Variable order : Order.
Variable orderBy : OrderBy.

Abbreviation sorted := (sortedResults StringToNumber order orderBy).
Abbreviation compare := (comparator StringToNumber order orderBy).

(** What [sortedResults] does to the store, case by case. *)
Lemma sortedResults_cases results h :
  (sorted results h = (Returns (List.length h), (h ++ [[]])%list)
   /\ match results with
      | None => True
      | Some r => Store.read h r = []
      end)
  \/ (exists r, results = Some r /\ Store.read h r <> []
      /\ ((exists l, Store.sort_list compare (Store.read h r) = Returns l
                     /\ sorted results h
                        = (Returns (List.length h), (h ++ [l])%list))
          \/ (exists e, Store.sort_list compare (Store.read h r) = Throws e
                        /\ sorted results h
                           = (Throws e, (h ++ [Store.read h r])%list)))).
Proof.
  unfold sortedResults. destruct results as [r|]; [|left; split; [reflexivity | exact I]].
  unfold Store.bind, Store.array_length, Store.empty_array, Store.spread,
    Store.alloc, Store.sort.
  cbv beta zeta iota.
  destruct (Store.read h r) as [|x rest] eqn:Hread.
  - left. split; reflexivity.
  - right. exists r. split; [reflexivity|]. rewrite Hread.
    split; [discriminate|].
    cbn [List.length Nat.eqb]. rewrite Hread, read_alloc_new.
    destruct (Store.sort_list compare (x :: rest)) as [l|e] eqn:Hs.
    + left. exists l. split; [reflexivity|]. now rewrite write_alloc_new.
    + right. exists e. split; reflexivity.
Qed.

(** Whatever the outcome, every array that existed before is unchanged:
    the sort works on a copy. *)
Lemma sortedResults_leaves_arrays_unchanged results h o h' :
  sorted results h = (o, h') ->
  forall r, (r < List.length h)%nat -> Store.read h' r = Store.read h r.
Proof.
  intros H r Hr.
  destruct (sortedResults_cases results h)
    as [[E _] | (r0 & _ & _ & [(l & _ & E) | (e & _ & E)])];
    rewrite E in H; injection H as _ <-; now apply read_alloc_old.
Qed.

(** When it returns, the result is a new array holding a permutation of
    the input (the empty array for a missing or empty input). *)
Lemma sortedResults_permutation results h r' h' :
  sorted results h = (Returns r', h') ->
  r' = List.length h
  /\ Permutation
       (match results with Some r => Store.read h r | None => [] end)
       (Store.read h' r').
Proof.
  intros H.
  destruct (sortedResults_cases results h)
    as [[E Hempty] | (r0 & -> & _ & [(l & Hs & E) | (e & _ & E)])];
    rewrite E in H; try discriminate; injection H as <- <-;
    (split; [reflexivity|]); rewrite read_alloc_new.
  - destruct results as [r|]; [rewrite Hempty|]; apply perm_nil.
  - now apply sort_list_permutation in Hs.
Qed.

(** Columns read from the record never make the comparison throw; the
    job title column does not when both titles are text. *)
Lemma comparator_returns a b :
  orderBy <> by_jobTitle \/ (text_job_title a /\ text_job_title b) ->
  exists c, compare a b = Returns c.
Proof.
  intros Hok. unfold comparator.
  destruct orderBy;
    try (cbv [bind_outcome];
         (destruct (less_than _ _ _); [eauto|]);
         (destruct (less_than _ _ _); eauto)).
  destruct Hok as [Hne | [(sa & ->) (sb & ->)]]; [congruence|].
  cbv [bind_outcome call_toLowerCase].
  (destruct (less_than _ _ _); [eauto|]);
  (destruct (less_than _ _ _); eauto).
Qed.

Lemma sortedResults_returns results h :
  orderBy <> by_jobTitle
  \/ (forall r, results = Some r -> Forall text_job_title (Store.read h r)) ->
  exists r' h', sorted results h = (Returns r', h').
Proof.
  intros Hok.
  destruct (sortedResults_cases results h)
    as [[E _] | (r0 & -> & _ & [(l & _ & E) | (e & Hs & _)])]; eauto.
  destruct (sort_list_returns compare
              (fun row => orderBy <> by_jobTitle \/ text_job_title row)
              (fun a b Ha Hb =>
                 comparator_returns a b
                   match Ha, Hb with
                   | or_introl Hne, _ | _, or_introl Hne => or_introl Hne
                   | or_intror Ta, or_intror Tb => or_intror (conj Ta Tb)
                   end)
              (Store.read h r0)) as (l & Hl); [|congruence].
  destruct Hok as [Hne | Htext].
  - apply Forall_forall. intros row _. now left.
  - eapply Forall_impl; [|apply (Htext r0 eq_refl)]. intros row Hrow. now right.
Qed.

End SortedResults.

(** A missing or empty input gives a new empty array. *)
Lemma sortedResults_of_nothing StringToNumber order orderBy results h :
  match results with None => True | Some r => Store.read h r = [] end ->
  exists r' h',
    sortedResults StringToNumber order orderBy results h = (Returns r', h')
    /\ Store.read h' r' = [].
Proof.
  intros Hempty.
  destruct (sortedResults_cases StringToNumber order orderBy results h)
    as [[E _] | (r & -> & Hne & _)]; [|contradiction].
  eexists _, _. split; [exact E|]. apply read_alloc_new.
Qed.

(** C8.  Sorting by job title throws when the required data of a
    job_title field is a list of strings, which the match types allow and
    the dialog renders: the copy is made, the comparison calls
    [toLowerCase] on an array, and no sorted list is returned.  The input
    array is unchanged. *)
Theorem sortedResults_throws_on_job_title_list :
  forall (StringToNumber : string -> number) (order : Order),
    let rows := [ sample_record "r1" "Ann" (JArray [JString "Engineer"]);
                  sample_record "r2" "Bob" (JString "Analyst") ]%string in
    sortedResults StringToNumber order by_jobTitle (Some 0%nat) [rows]
    = (Throws (TypeError "toLowerCase is not a function"), [rows; rows]).
Proof. intros StringToNumber order rows. reflexivity. Qed.

(** ** The aggregator *)

Section AggregatorFacts.

Import Aggregator.

Lemma accumulate_weight_sum results acc :
  weight_sum (accumulate acc results)
  = (weight_sum acc + weightage_sum (weighted_fields results))%Z.
Proof.
  unfold accumulate. revert acc.
  induction results as [|[rule fr] rest IH]; intros acc; simpl.
  - unfold weightage_sum. simpl. lia.
  - rewrite IH. unfold weighted_fields. simpl.
    destruct (0 <? Rule.weightage rule)%Z; simpl.
    + unfold weightage_sum. simpl. lia.
    + reflexivity.
Qed.

Lemma accumulate_weighted_sum results acc :
  weighted_sum (accumulate acc results)
  == weighted_sum acc + weighted_score_sum (weighted_fields results).
Proof.
  unfold accumulate. revert acc.
  induction results as [|[rule fr] rest IH]; intros acc; simpl.
  - unfold weighted_score_sum, total. simpl. lra.
  - rewrite IH. unfold weighted_fields. simpl.
    destruct (0 <? Rule.weightage rule)%Z; simpl.
    + unfold weighted_score_sum, total. simpl. lra.
    + reflexivity.
Qed.

Lemma accumulate_field_count results acc :
  field_count (accumulate acc results) = (field_count acc + List.length results)%nat.
Proof.
  unfold accumulate. revert acc.
  induction results as [|sr rest IH]; intros acc; simpl; [lia|].
  rewrite IH. simpl. lia.
Qed.

Lemma divide_returns x y : ~ y == 0 -> divide x y = Returns (x / y).
Proof.
  intros Hy. unfold divide.
  destruct (Qeq_bool y 0) eqn:E; [|reflexivity].
  apply Qeq_bool_iff in E. contradiction.
Qed.

Lemma inject_Z_nonzero z : z <> 0%Z -> ~ inject_Z z == 0.
Proof.
  intros Hz E. apply Hz. unfold Qeq in E. simpl in E. lia.
Qed.

(** What [aggregate] returns, by cases on the total of the positive
    weightages; it never throws. *)
Lemma aggregate_cases results :
  let acc := accumulate no_totals results in
  (weightage_sum (weighted_fields results) = 0%Z
   /\ aggregate results = Returns all_zero)
  \/ (weightage_sum (weighted_fields results) <> 0%Z
      /\ results <> []
      /\ aggregate results
         = Returns
             {| Aggregate.overall_score_weighted :=
                  weighted_sum acc / inject_Z (weight_sum acc);
                Aggregate.overall_score_average_all :=
                  score_sum acc / inject_Z (Z.of_nat (field_count acc));
                Aggregate.overall_score_average_non_zero :=
                  match non_zero_count acc with
                  | O => 0
                  | S _ => non_zero_sum acc / inject_Z (Z.of_nat (non_zero_count acc))
                  end;
                Aggregate.max_score :=
                  match top acc with Some (_, m) => m | None => 0 end;
                Aggregate.max_score_field :=
                  match top acc with Some (f, _) => f | None => ""%string end |}).
Proof.
  intros acc. unfold aggregate, finish. fold (accumulate no_totals results). fold acc.
  pose proof (accumulate_weight_sum results no_totals) as Hw. fold acc in Hw. simpl in Hw.
  pose proof (accumulate_field_count results no_totals) as Hc. fold acc in Hc. simpl in Hc.
  destruct (weight_sum acc =? 0)%Z eqn:E.
  - left. apply Z.eqb_eq in E. split; [congruence | reflexivity].
  - right. apply Z.eqb_neq in E. split; [congruence|].
    assert (Hne : results <> []).
    { intros ->. apply E. rewrite Hw. reflexivity. }
    split; [assumption|].
    rewrite divide_returns by (apply inject_Z_nonzero; assumption).
    rewrite divide_returns.
    2:{ apply inject_Z_nonzero. rewrite Hc. destruct results; [congruence | simpl; lia]. }
    simpl. destruct (non_zero_count acc) as [|k] eqn:Hk; [reflexivity|].
    rewrite divide_returns by (apply inject_Z_nonzero; lia).
    reflexivity.
Qed.

Lemma aggregate_returns results : exists a, aggregate results = Returns a.
Proof.
  destruct (aggregate_cases results) as [[_ E] | (_ & _ & E)]; eauto.
Qed.

Lemma weighted_fields_app l1 l2 :
  weighted_fields (l1 ++ l2) = (weighted_fields l1 ++ weighted_fields l2)%list.
Proof. apply filter_app. Qed.

Lemma weighted_fields_skip before scored after :
  Rule.weightage (fst scored) = 0%Z ->
  weighted_fields (before ++ scored :: after) = weighted_fields (before ++ after).
Proof.
  intros Hw. rewrite !weighted_fields_app. f_equal.
  unfold weighted_fields. simpl. now rewrite Hw.
Qed.

(** The weighted score in closed form. *)
Lemma aggregate_weighted results a :
  aggregate results = Returns a ->
  Aggregate.overall_score_weighted a
  == weighted_score_sum (weighted_fields results)
     / inject_Z (weightage_sum (weighted_fields results)).
Proof.
  intros Ha.
  destruct (aggregate_cases results) as [[Hz E] | (Hnz & _ & E)];
    rewrite E in Ha; injection Ha as <-; simpl.
  - rewrite Hz. unfold Qdiv. change (/ inject_Z 0) with 0. lra.
  - rewrite accumulate_weight_sum, accumulate_weighted_sum. simpl.
    rewrite Qplus_0_l. reflexivity.
Qed.

End AggregatorFacts.

(** C1.  The aggregator returns, and its weighted score is the sum of
    score times weightage over the fields with weightage above 0, divided
    by the sum of those weightages (0 when that sum is 0, which is also
    the value of the quotient in [Q]); a field with weightage 0 is not
    among those fields, and taking it out of the list leaves the weighted
    score as it was. *)
Theorem overall_score_weighted_is_weighted_mean :
  forall results : list (Rule.t * FieldResult.t),
    exists a,
      Aggregator.aggregate results = Returns a
      /\ Aggregate.overall_score_weighted a
         == weighted_score_sum (weighted_fields results)
            / inject_Z (weightage_sum (weighted_fields results))
      /\ (weightage_sum (weighted_fields results) = 0%Z ->
          Aggregate.overall_score_weighted a == 0)
      /\ (forall scored,
             In scored (weighted_fields results)
             <-> In scored results /\ (0 < Rule.weightage (fst scored))%Z)
      /\ (forall before scored after a',
             results = (before ++ scored :: after)%list ->
             Rule.weightage (fst scored) = 0%Z ->
             Aggregator.aggregate (before ++ after) = Returns a' ->
             Aggregate.overall_score_weighted a' == Aggregate.overall_score_weighted a).
Proof.
  intros results. destruct (aggregate_returns results) as (a & Ha).
  exists a. split; [assumption|].
  pose proof (aggregate_weighted results a Ha) as Hw.
  split; [assumption|]. split; [|split].
  - intros Hz. rewrite Hw, Hz. unfold Qdiv. change (/ inject_Z 0) with 0. lra.
  - intros scored. unfold weighted_fields. rewrite filter_In, Z.ltb_lt. tauto.
  - intros before scored after a' -> Hzero Ha'.
    rewrite Hw, (aggregate_weighted _ _ Ha').
    now rewrite (weighted_fields_skip before scored after Hzero).
Qed.

Section DegenerateInputs.

Import Aggregator.

Lemma weighted_score_sum_zero results :
  Forall (fun scored => FieldResult.score (snd scored) == 0) results -> weighted_score_sum results == 0.
Proof.
  induction 1 as [|[rule fr] rest Hs _ IH]; unfold weighted_score_sum, total in *; simpl.
  - reflexivity.
  - simpl in Hs. rewrite IH, Hs. lra.
Qed.

Lemma Forall_weighted_fields (P : Rule.t * FieldResult.t -> Prop) results :
  Forall P results -> Forall P (weighted_fields results).
Proof.
  intros H. apply Forall_forall. intros x Hx.
  apply filter_In in Hx as [Hx _]. revert x Hx. now apply Forall_forall.
Qed.

Lemma accumulate_zero_scores results acc :
  Forall (fun scored => FieldResult.score (snd scored) == 0) results ->
  score_sum (accumulate acc results) == score_sum acc
  /\ non_zero_count (accumulate acc results) = non_zero_count acc
  /\ ((forall f m, top acc = Some (f, m) -> m == 0) ->
      forall f m, top (accumulate acc results) = Some (f, m) -> m == 0).
Proof.
  unfold accumulate. intros H. revert acc.
  induction H as [|[rule fr] rest Hs _ IH]; intros acc; simpl.
  - repeat split; try reflexivity; auto.
  - simpl in Hs.
    destruct (IH (add_field acc (rule, fr))) as (Hsum & Hcount & Htop).
    assert (Hb : Qeq_bool (FieldResult.score fr) 0 = true) by now apply Qeq_bool_iff.
    repeat split.
    + rewrite Hsum. simpl. rewrite Hs. lra.
    + rewrite Hcount. simpl. now rewrite Hb.
    + intros Hacc. apply Htop. simpl. intros f m.
      destruct (top acc) as [[f0 m0]|] eqn:Et.
      * destruct (Qlt_le_dec m0 (FieldResult.score fr)); intros [= <- <-];
          [assumption | now apply (Hacc f0)].
      * intros [= <- <-]. assumption.
Qed.

Lemma weightage_sum_all_zero results :
  Forall (fun scored => Rule.weightage (fst scored) = 0%Z) results ->
  weightage_sum (weighted_fields results) = 0%Z.
Proof.
  induction 1 as [|[rule fr] rest Hw _ IH]; [reflexivity|].
  unfold weighted_fields in *. simpl in *. now rewrite Hw.
Qed.

(** C2.  Aggregation never throws.  On an empty list, on a list whose
    weightages are all 0 and on a list whose scores are all 0, the four
    aggregate scores are 0; in particular the non-zero average is 0 when
    no field has a non-zero score. *)
Theorem aggregate_defined_and_zero_on_degenerate_input :
  forall results : list (Rule.t * FieldResult.t),
    exists a,
      aggregate results = Returns a
      /\ ((results = []
           \/ Forall (fun scored => Rule.weightage (fst scored) = 0%Z) results
           \/ Forall (fun scored => FieldResult.score (snd scored) == 0) results) ->
          all_scores_zero a)
      /\ (Forall (fun scored => FieldResult.score (snd scored) == 0) results ->
          Aggregate.overall_score_average_non_zero a == 0).
Proof.
  intros results.
  assert (Hzero : forall a,
             aggregate results = Returns a ->
             Forall (fun scored => FieldResult.score (snd scored) == 0) results ->
             all_scores_zero a).
  { intros a Ha Hs.
    destruct (aggregate_cases results) as [[_ E] | (_ & _ & E)];
      rewrite E in Ha; injection Ha as <-; unfold all_scores_zero; simpl;
      [repeat split; reflexivity|].
    destruct (accumulate_zero_scores results no_totals Hs) as (Hsum & Hcount & Htop).
    pose proof (accumulate_weighted_sum results no_totals) as Hw.
    unfold accumulate in *. simpl in Hsum, Hcount, Hw.
    rewrite (weighted_score_sum_zero _ (Forall_weighted_fields _ _ Hs)) in Hw.
    rewrite Hcount, Hw, Hsum.
    repeat split; try (unfold Qdiv; lra).
    destruct (top (fold_left add_field results no_totals)) as [[f m]|] eqn:Et;
      [|reflexivity].
    assert (Hnone : forall f m, top no_totals = Some (f, m) -> m == 0)
      by (intros ? ? [=]).
    exact (Htop Hnone f m eq_refl). }
  destruct (aggregate_returns results) as (a & Ha).
  exists a. split; [assumption|]. split.
  - intros [-> | [Hw | Hs]].
    + injection Ha as <-. repeat split; reflexivity.
    + destruct (aggregate_cases results) as [[_ E] | (Hnz & _ & _)].
      * rewrite E in Ha. injection Ha as <-. repeat split; reflexivity.
      * now rewrite weightage_sum_all_zero in Hnz.
    + now apply Hzero.
  - intros Hs. now apply (Hzero a Ha Hs).
Qed.

End DegenerateInputs.

(** ** The keyword matcher *)

Section KeywordFacts.

Import KeywordMatcher.

Variable P : Policy.
Variable resumeText : string.

Lemma matched_weight_bounds entries :
  Forall (fun e => 0 <= KeywordEntry.weight e) entries ->
  0 <= total (map KeywordMatchDetail.weight (matched P resumeText entries))
  /\ total (map KeywordMatchDetail.weight (matched P resumeText entries))
     <= total (map KeywordEntry.weight entries).
Proof.
  induction 1 as [|e rest He _ [IH0 IH1]]; simpl.
  - unfold total. simpl. split; apply Qle_refl.
  - destruct (find_keyword P (KeywordEntry.match_type e) (KeywordEntry.keyword e) resumeText);
      unfold total in *; simpl; split; lra.
Qed.

Lemma achieved_bounds categories :
  keyword_weights_nonneg categories ->
  let r := matchKeywords P categories resumeText in
  0 <= total_achieved_score r /\ total_achieved_score r <= total_possible_score r.
Proof.
  unfold matchKeywords. simpl. rewrite map_map. simpl.
  induction 1 as [|c rest Hc _ [IH0 IH1]]; simpl.
  - unfold total. simpl. split; apply Qle_refl.
  - destruct (matched_weight_bounds _ Hc) as [H0 H1].
    unfold total in *. simpl. split; lra.
Qed.

End KeywordFacts.

(** C3.  The overall keyword match score is the achieved score divided by
    the possible score, times 100, and 0 when the possible score is 0;
    with weights that are not negative the achieved score is at most the
    possible score and the overall score lies between 0 and 100. *)
Theorem keyword_overall_match_score_ratio_and_bounds :
  forall (P : Policy) (categories : list KeywordRuleCategory.t) (resumeText : string),
    let r := KeywordMatcher.matchKeywords P categories resumeText in
    (~ KeywordMatcher.total_possible_score r == 0 ->
     KeywordMatcher.overall_match_score r
     == KeywordMatcher.total_achieved_score r
        / KeywordMatcher.total_possible_score r * 100)
    /\ (KeywordMatcher.total_possible_score r == 0 ->
        KeywordMatcher.overall_match_score r == 0)
    /\ (keyword_weights_nonneg categories ->
        KeywordMatcher.total_achieved_score r <= KeywordMatcher.total_possible_score r
        /\ 0 <= KeywordMatcher.overall_match_score r
        /\ KeywordMatcher.overall_match_score r <= 100).
Proof.
  intros P categories resumeText r.
  assert (Hover :
            KeywordMatcher.overall_match_score r
            = if Qeq_bool (KeywordMatcher.total_possible_score r) 0 then 0
              else KeywordMatcher.total_achieved_score r
                   / KeywordMatcher.total_possible_score r * 100) by reflexivity.
  pose proof (achieved_bounds P resumeText categories) as Hbounds.
  cbv zeta in Hbounds. fold r in Hbounds.
  set (possible := KeywordMatcher.total_possible_score r) in *.
  set (achieved := KeywordMatcher.total_achieved_score r) in *.
  rewrite Hover. clear Hover.
  destruct (Qeq_bool possible 0) eqn:E.
  - apply Qeq_bool_iff in E.
    split; [intros Hn; contradiction|]. split; [reflexivity|].
    intros Hw. destruct (Hbounds Hw) as [H0 H1].
    split; [assumption | split; lra].
  - apply Qeq_bool_neq in E.
    split; [reflexivity|]. split; [intros Hz; contradiction|].
    intros Hw. destruct (Hbounds Hw) as [H0 H1].
    assert (Hpos : 0 < possible)
      by (destruct (Qlt_le_dec 0 possible); [assumption | exfalso; apply E; lra]).
    assert (Hq0 : 0 <= achieved / possible)
      by (apply Qle_shift_div_l; [assumption | lra]).
    assert (Hq1 : achieved / possible <= 1)
      by (apply Qle_shift_div_r; [assumption | lra]).
    split; [assumption | split; lra].
Qed.

Lemma sample_categories_nonneg : keyword_weights_nonneg sample_categories.
Proof. repeat constructor; unfold Qle; simpl; lia. Defined.

Lemma keyword_overall_match_score_ratio_and_bounds_witness :
  keyword_weights_nonneg sample_categories
  /\ KeywordMatcher.overall_match_score
       (KeywordMatcher.matchKeywords sample_policy sample_categories
          "java and sql developer") <= 100.
Proof.
  split; [exact sample_categories_nonneg|].
  exact (proj2 (proj2 (proj2 (proj2
    (keyword_overall_match_score_ratio_and_bounds sample_policy sample_categories
       "java and sql developer")) sample_categories_nonneg))).
Defined.

(** A negative weight on a keyword that the text does not contain lowers
    the possible score and not the achieved one: the achieved score is
    then above the possible score and the overall score above 100. *)
Lemma keyword_overall_match_score_above_100_with_negative_weight :
  let categories :=
    [ {| KeywordRuleCategory.name := "languages";
         KeywordRuleCategory.entries :=
           [ {| KeywordEntry.keyword := "java"; KeywordEntry.weight := 3;
                KeywordEntry.match_type := exact_token |};
             {| KeywordEntry.keyword := "rust"; KeywordEntry.weight := -(1);
                KeywordEntry.match_type := exact_token |} ] |} ]%string in
  let r := KeywordMatcher.matchKeywords sample_policy categories "java developer" in
  KeywordMatcher.total_achieved_score r == 3
  /\ KeywordMatcher.total_possible_score r == 2
  /\ KeywordMatcher.overall_match_score r == 150
  /\ ~ KeywordMatcher.total_achieved_score r <= KeywordMatcher.total_possible_score r
  /\ ~ KeywordMatcher.overall_match_score r <= 100.
Proof.
  repeat split; intros H; vm_compute in H; apply H; reflexivity.
Qed.

(** ** The source resolver and the field scorer *)

Lemma best_source_snoc evaluated sv :
  FieldScorer.best_source (evaluated ++ [sv])
  = FieldScorer.better (FieldScorer.best_source evaluated) sv.
Proof. unfold FieldScorer.best_source. now rewrite fold_left_app. Qed.

(** The winner of a non-empty list is its first maximum. *)
Lemma best_source_first_maximum evaluated :
  match FieldScorer.best_source evaluated with
  | None => evaluated = []
  | Some best => exists i, first_maximum evaluated i best
  end.
Proof.
  induction evaluated as [|sv evaluated IH] using rev_ind; [reflexivity|].
  rewrite best_source_snoc.
  destruct (FieldScorer.best_source evaluated) as [b|]; simpl.
  - destruct IH as (i & Hi & Hmax & Hfirst).
    assert (Hlt : (i < List.length evaluated)%nat)
      by (apply nth_error_Some; congruence).
    destruct (Qlt_le_dec (CandidateSourceValue.score b) (CandidateSourceValue.score sv))
      as [Hb|Hb].
    + exists (List.length evaluated). repeat split.
      * rewrite nth_error_app2, Nat.sub_diag by lia. reflexivity.
      * intros j other Hj.
        destruct (Nat.lt_ge_cases j (List.length evaluated)) as [Hjl|Hjl].
        -- rewrite nth_error_app1 in Hj by assumption.
           apply Qle_trans with (y := CandidateSourceValue.score b);
             [now apply (Hmax j) | now apply Qlt_le_weak].
        -- rewrite nth_error_app2 in Hj by assumption.
           destruct (j - List.length evaluated)%nat as [|k]; simpl in Hj;
             [injection Hj as <-; apply Qle_refl | destruct k; discriminate].
      * intros j other Hjl Hj. rewrite nth_error_app1 in Hj by assumption.
        apply Qle_lt_trans with (y := CandidateSourceValue.score b);
          [now apply (Hmax j) | assumption].
    + exists i. repeat split.
      * now rewrite nth_error_app1.
      * intros j other Hj.
        destruct (Nat.lt_ge_cases j (List.length evaluated)) as [Hjl|Hjl].
        -- rewrite nth_error_app1 in Hj by assumption. now apply (Hmax j).
        -- rewrite nth_error_app2 in Hj by assumption.
           destruct (j - List.length evaluated)%nat as [|k]; simpl in Hj;
             [injection Hj as <-; assumption | destruct k; discriminate].
      * intros j other Hji Hj. rewrite nth_error_app1 in Hj by lia.
        now apply (Hfirst j).
  - subst evaluated. exists 0%nat. repeat split.
    + intros [|[|j]] other Hj; simpl in Hj; try discriminate.
      injection Hj as <-. apply Qle_refl.
    + intros j other Hj. lia.
Qed.

Lemma map_source_field_resolve P rule profile k sources :
  map CandidateSourceValue.source_field
    (mapi_from k (SourceResolver.evaluate P rule profile) sources)
  = sources.
Proof.
  revert k. induction sources as [|source rest IH]; intros k; simpl; [reflexivity|].
  rewrite IH. f_equal. unfold SourceResolver.evaluate.
  now destruct (SourceResolver.read_source profile source).
Qed.

(** C5.  The source resolver records one entry per configured profile
    data source, in order; a source that yields no data is recorded with
    no data, score 0 and confidence 0; and the field result names as best
    source the evaluated source with the highest score, the earliest one
    on a tie. *)
Theorem every_source_recorded_and_best_is_first_maximum :
  forall (P : Policy) (rule : Rule.t) (profile : Profile),
    let evaluated := SourceResolver.resolve P rule profile in
    let result := score_rule P profile rule in
    map CandidateSourceValue.source_field evaluated = Rule.profiledatasource rule
    /\ FieldResult.sources_evaluated result = evaluated
    /\ (forall i source,
           nth_error (Rule.profiledatasource rule) i = Some source ->
           SourceResolver.read_source profile source = None ->
           nth_error evaluated i
           = Some {| CandidateSourceValue.source_field := source;
                     CandidateSourceValue.data := None;
                     CandidateSourceValue.score := 0;
                     CandidateSourceValue.confidence := 0 |})
    /\ (Rule.profiledatasource rule = []
        \/ exists i best,
             first_maximum evaluated i best
             /\ FieldResult.best_source_used result
                = CandidateSourceValue.source_field best
             /\ FieldResult.score result = CandidateSourceValue.score best).
Proof.
  intros P rule profile evaluated result.
  split; [apply map_source_field_resolve|]. split; [reflexivity|]. split.
  - intros i source Hi Hnone. unfold evaluated, SourceResolver.resolve.
    rewrite nth_error_mapi, Hi. simpl. unfold SourceResolver.evaluate.
    now rewrite Hnone.
  - pose proof (best_source_first_maximum evaluated) as Hbest.
    unfold result, score_rule, FieldScorer.score. fold evaluated. simpl.
    destruct (FieldScorer.best_source evaluated) as [best|].
    + right. destruct Hbest as (i & Hi). exists i, best. auto.
    + left. apply (f_equal (@List.length _)) in Hbest.
      unfold evaluated, SourceResolver.resolve in Hbest. rewrite length_mapi in Hbest.
      now destruct (Rule.profiledatasource rule).
Qed.

(** Closes a range goal for a score that is plainly 0 or more: the
    bounds by arithmetic, the negative case by contradiction. *)
Ltac score_not_negative :=
  repeat split; try lra; intros Hneg; exfalso; lra.

Lemma round_bounds x : 0 <= x -> x <= 100 -> 0 <= round x /\ round x <= 100.
Proof.
  intros H0 H1. unfold round. split.
  - change 0 with (inject_Z 0). rewrite <- Zle_Qle.
    change 0%Z with (Qfloor 0). apply Qfloor_resp_le. lra.
  - change 100 with (inject_Z 100). rewrite <- Zle_Qle.
    change 100%Z with (Qfloor (100 + (1 # 2))). apply Qfloor_resp_le. lra.
Qed.

Section FieldScorerFacts.

Variable P : Policy.

(** The score of a quantity under a NEGATIVE_CONSTRAINT rule, on each
    side of the threshold. *)
Lemma negative_constraint_within rule direction limit v :
  Rule.type rule = NEGATIVE_CONSTRAINT ->
  Rule.data rule = Threshold direction limit ->
  ~ beyond direction limit v ->
  FieldScorer.score_value P rule (Quantity v) == 0.
Proof.
  intros Ht Hd Hin. unfold FieldScorer.score_value. rewrite Ht, Hd. cbv zeta.
  assert (E : Qle_bool (deviation direction limit v) 0 = true).
  { apply Qle_bool_iff. destruct direction; simpl in *; lra. }
  rewrite E. reflexivity.
Qed.

Lemma negative_constraint_beyond rule direction limit v :
  Rule.type rule = NEGATIVE_CONSTRAINT ->
  Rule.data rule = Threshold direction limit ->
  beyond direction limit v ->
  FieldScorer.score_value P rule (Quantity v)
  = Qmax (penalty_floor P)
      (- (deviation direction limit v * penalty_unit P (Rule.weightage rule)))
  /\ 0 < deviation direction limit v.
Proof.
  intros Ht Hd Hout.
  assert (Hover : 0 < deviation direction limit v)
    by (destruct direction; simpl in *; lra).
  split; [|exact Hover].
  unfold FieldScorer.score_value. rewrite Ht, Hd. cbv zeta.
  destruct (Qle_bool (deviation direction limit v) 0) eqn:E; [|reflexivity].
  apply Qle_bool_iff in E. lra.
Qed.

(** A penalty is strictly negative exactly when the unit is positive and
    the floor is below 0. *)
Lemma penalty_negative_iff floor over unit :
  0 < over ->
  (Qmax floor (- (over * unit)) < 0 <-> 0 < unit /\ floor < 0).
Proof.
  intros Hover. split.
  - intros Hneg.
    pose proof (Q.le_max_l floor (- (over * unit))) as Hl.
    pose proof (Q.le_max_r floor (- (over * unit))) as Hr.
    split; [|lra].
    destruct (Qlt_le_dec 0 unit) as [Hu|Hu]; [assumption|]. exfalso.
    assert (Hprod : 0 <= over * - unit) by (apply Qmult_le_0_compat; lra).
    assert (E : over * - unit == - (over * unit)) by ring.
    lra.
  - intros [Hu Hf].
    assert (Hprod : 0 < over * unit) by now apply Qmult_lt_0_compat.
    destruct (Q.max_spec floor (- (over * unit))) as [[_ ->] | [_ ->]]; lra.
Qed.

(** Every entry of the resolver is the evaluation of a configured source,
    the field score is that of one of them, and no entry scores more. *)
Lemma field_score_is_maximum rule profile :
  let result := score_rule P profile rule in
  (Rule.profiledatasource rule = [] /\ FieldResult.score result = 0)
  \/ (exists i source,
         nth_error (Rule.profiledatasource rule) i = Some source
         /\ FieldResult.score result
            = CandidateSourceValue.score (SourceResolver.evaluate P rule profile i source))
     /\ forall j other,
          nth_error (Rule.profiledatasource rule) j = Some other ->
          CandidateSourceValue.score (SourceResolver.evaluate P rule profile j other)
          <= FieldResult.score result.
Proof.
  intros result.
  pose proof (best_source_first_maximum (SourceResolver.resolve P rule profile)) as Hbest.
  unfold result, score_rule, FieldScorer.score. simpl.
  destruct (FieldScorer.best_source (SourceResolver.resolve P rule profile)) as [best|].
  - right. destruct Hbest as (i & Hi & Hmax & _).
    unfold SourceResolver.resolve in Hi, Hmax. rewrite nth_error_mapi in Hi.
    destruct (nth_error (Rule.profiledatasource rule) i) as [source|] eqn:Hsrc;
      [|discriminate].
    simpl in Hi. injection Hi as <-. split; [eauto|].
    intros j other Hj. apply (Hmax j). now rewrite nth_error_mapi, Hj.
  - left. split; [|reflexivity].
    apply (f_equal (@List.length _)) in Hbest.
    unfold SourceResolver.resolve in Hbest. rewrite length_mapi in Hbest.
    now destruct (Rule.profiledatasource rule).
Qed.

(** The score recorded for a source that holds a quantity is the score
    of that quantity, at any position. *)
Lemma evaluate_quantity rule profile position source d :
  SourceResolver.read_source profile source = Some d ->
  CandidateSourceValue.score (SourceResolver.evaluate P rule profile position source)
  = FieldScorer.score_value P rule d.
Proof. intros Hread. unfold SourceResolver.evaluate. now rewrite Hread. Qed.

Lemma evaluate_no_data rule profile position source :
  SourceResolver.read_source profile source = None ->
  CandidateSourceValue.score (SourceResolver.evaluate P rule profile position source) = 0.
Proof. intros Hread. unfold SourceResolver.evaluate. now rewrite Hread. Qed.

Hypothesis P_bounded : policy_bounded P.

(** The penalty of a violated constraint lies in [-100,0]. *)
Lemma penalty_bounds over w :
  0 < over ->
  -(100) <= Qmax (penalty_floor P) (- (over * penalty_unit P w))
  /\ Qmax (penalty_floor P) (- (over * penalty_unit P w)) <= 0.
Proof.
  intros Hover.
  pose proof (penalty_unit_nonneg P P_bounded w) as Hu.
  pose proof (penalty_floor_low P P_bounded) as Hlow.
  pose proof (penalty_floor_high P P_bounded) as Hhigh.
  assert (Hprod : 0 <= over * penalty_unit P w) by (apply Qmult_le_0_compat; lra).
  destruct (Q.max_spec (penalty_floor P) (- (over * penalty_unit P w)))
    as [[Hlt ->] | [Hle ->]]; split; lra.
Qed.

(** The score of one extracted value lies in [-100,100], and is negative
    only for a quantity beyond the threshold of a NEGATIVE_CONSTRAINT
    rule. *)
Lemma score_value_range rule d :
  -(100) <= FieldScorer.score_value P rule d
  /\ FieldScorer.score_value P rule d <= 100
  /\ (FieldScorer.score_value P rule d < 0 ->
      Rule.type rule = NEGATIVE_CONSTRAINT
      /\ exists direction limit v,
           Rule.data rule = Threshold direction limit
           /\ d = Quantity v
           /\ beyond direction limit v).
Proof.
  unfold FieldScorer.score_value.
  destruct (Rule.type rule) eqn:Et; destruct (Rule.data rule) as [e|l|lo hi|dir lim] eqn:Ed;
    destruct d as [c|v];
    try score_not_negative.
  - destruct (normalize e =? normalize c)%string; score_not_negative.
  - destruct (range_partial_bounds P P_bounded lo hi v) as [H0 H1].
    destruct (Qle_bool lo v && Qle_bool v hi); score_not_negative.
  - destruct (similarity_bounds P P_bounded e c) as [H0 H1].
    destruct (round_bounds (similarity P e c * 100)) as [R0 R1]; [lra | lra |].
    score_not_negative.
  - cbv zeta. destruct (Qle_bool (deviation dir lim v) 0) eqn:E.
    + score_not_negative.
    + assert (Hover : 0 < deviation dir lim v).
      { destruct (Qlt_le_dec 0 (deviation dir lim v)) as [H|H]; [assumption|].
        apply Qle_bool_iff in H. congruence. }
      destruct (penalty_bounds (deviation dir lim v) (Rule.weightage rule) Hover)
        as [Hlo Hhi].
      repeat split; try lra.
      exists dir, lim, v. repeat split. destruct dir; simpl in *; lra.
Qed.

Lemma evaluate_range rule profile position source :
  let sv := SourceResolver.evaluate P rule profile position source in
  -(100) <= CandidateSourceValue.score sv
  /\ CandidateSourceValue.score sv <= 100
  /\ (CandidateSourceValue.score sv < 0 ->
      Rule.type rule = NEGATIVE_CONSTRAINT
      /\ exists direction limit v,
           Rule.data rule = Threshold direction limit
           /\ SourceResolver.read_source profile source = Some (Quantity v)
           /\ beyond direction limit v).
Proof.
  unfold SourceResolver.evaluate.
  destruct (SourceResolver.read_source profile source) as [d|]; simpl.
  - destruct (score_value_range rule d) as (Hlo & Hhi & Hneg).
    repeat split; try assumption.
    + now apply Hneg.
    + destruct (Hneg H) as (_ & dir & lim & v & Hd & -> & Hv). eauto 6.
  - score_not_negative.
Qed.

End FieldScorerFacts.


Lemma sample_policy_bounded : policy_bounded sample_policy.
Proof.
  constructor; simpl; intros.
  - unfold Qle; simpl; lia.
  - unfold Qle; simpl; lia.
  - unfold Qle; simpl; lia.
  - split; unfold Qle; simpl; lia.
  - destruct (a =? b)%string; split; unfold Qle; simpl; lia.
Defined.



(** ** The form and upload components on small inputs *)

Example heading_of_job_title : capitalizedLabel "job_title"%string = "Job title"%string.
Proof. reflexivity. Qed.

Example organization_id_as_typed :
  RegisterFormData.organizationId
    (handleChange name_organizationId "Ab-12_cdEFgh"%string initialFormData)
  = "ab12cd"%string.
Proof. reflexivity. Qed.

Example replaced_choice_is_not_uploaded :
  let draft := {| File.name := "draft.docx"; File.type := "docx" |}%string in
  let final := {| File.name := "final.docx"; File.type := "docx" |}%string in
  uploaded_files
    (snd (run_events DocxUploadModal.handle None
            [ DocxFileChange (Some [draft]); DocxFileChange (Some [final]);
              DocxUploadClick; DocxUploadClick ]))
  = [final].
Proof. reflexivity. Qed.

Example empty_categories_show_nothing :
  renderKeywordDetails (Some [("languages", Some [])])%string = DetailsBoxes [].
Proof. reflexivity. Qed.

Example header_click_on_the_default_column :
  CandidateSearchState.order (handleRequestSort by_overallScore initialState) = asc.
Proof. reflexivity. Qed.

(** ** The order of strings and of keys *)

Lemma compare_refl s : String.compare s s = Eq.
Proof.
  induction s as [|c r IH]; simpl; [reflexivity|].
  unfold Ascii.compare. now rewrite N.compare_refl.
Qed.

Lemma ltb_irrefl s : String.ltb s s = false.
Proof. unfold String.ltb. now rewrite compare_refl. Qed.

Lemma ltb_leb a b : String.ltb a b = true -> String.leb a b = true.
Proof.
  unfold String.ltb, String.leb. destruct (String.compare a b); congruence.
Qed.

Lemma not_ltb_leb a b : String.ltb b a = false -> String.leb a b = true.
Proof.
  unfold String.ltb, String.leb. rewrite (String.compare_antisym a b).
  destruct (String.compare b a); simpl; congruence.
Qed.

Lemma leb_trans a b c :
  String.leb a b = true -> String.leb b c = true -> String.leb a c = true.
Proof.
  unfold String.leb.
  destruct (String.compare a b) eqn:Eab; try discriminate;
    destruct (String.compare b c) eqn:Ebc; try discriminate; intros _ _.
  - apply String.compare_eq_iff in Eab, Ebc. subst. now rewrite compare_refl.
  - apply String.compare_eq_iff in Eab. subst. now rewrite Ebc.
  - apply String.compare_eq_iff in Ebc. subst. now rewrite Eab.
  - apply String_as_OT.cmp_lt in Eab, Ebc.
    pose proof (String_as_OT.lt_trans _ _ _ Eab Ebc) as Hac.
    apply String_as_OT.cmp_lt in Hac. unfold String_as_OT.cmp in Hac.
    now rewrite Hac.
Qed.

Lemma number_ltb_irrefl x : number_ltb x x = false.
Proof.
  destruct x as [|n|q]; simpl; [reflexivity | now destruct n |].
  now rewrite (proj1 (Qeq_alt q q) (Qeq_refl q)).
Qed.

Lemma number_ltb_finite p q : number_ltb (Finite p) (Finite q) = true <-> p < q.
Proof.
  simpl. rewrite Qlt_alt. destruct (p ?= q); split; congruence.
Qed.

Lemma less_than_irrefl StringToNumber k : less_than StringToNumber k k = false.
Proof.
  destruct k; simpl; [apply ltb_irrefl | apply number_ltb_irrefl | reflexivity].
Qed.

Lemma three_way_tied StringToNumber order k : three_way StringToNumber order k k = 0%Z.
Proof. unfold three_way. now rewrite less_than_irrefl. Qed.

(** The comparison function is [three_way] on the keys of the two rows,
    and returns only when both rows have a key. *)
Lemma comparator_by_sort_key StringToNumber order orderBy a b ka kb :
  sort_key orderBy a = Returns ka -> sort_key orderBy b = Returns kb ->
  comparator StringToNumber order orderBy a b
  = Returns (three_way StringToNumber order ka kb).
Proof.
  unfold comparator, sort_key, three_way.
  destruct orderBy; try (intros [= <-] [= <-]; cbv [bind_outcome];
    destruct (less_than _ _ _); [reflexivity|];
    destruct (less_than _ _ _); reflexivity).
  destruct (call_toLowerCase (getJobTitle a)) as [ta|]; [|discriminate].
  destruct (call_toLowerCase (getJobTitle b)) as [tb|]; [|discriminate].
  intros [= <-] [= <-]. cbv [bind_outcome].
  destruct (less_than _ _ _); [reflexivity|].
  destruct (less_than _ _ _); reflexivity.
Qed.

Lemma comparator_returns_keys StringToNumber order orderBy a b c :
  comparator StringToNumber order orderBy a b = Returns c ->
  exists ka kb, sort_key orderBy a = Returns ka /\ sort_key orderBy b = Returns kb.
Proof.
  unfold comparator, sort_key.
  destruct orderBy; try (intros _; eexists _, _; split; reflexivity).
  destruct (call_toLowerCase (getJobTitle a)) as [ta|]; [|discriminate].
  destruct (call_toLowerCase (getJobTitle b)) as [tb|]; [|discriminate].
  intros _. eexists _, _; split; reflexivity.
Qed.

(** ** Array.prototype.sort with a consistent comparison function *)

Section SortOrder.

Context {A : Type} (comparefn : A -> A -> outcome Z).
Variable known : A -> Prop.
Variable R : A -> A -> Prop.

Hypothesis comparefn_order :
  forall a b, known a -> known b ->
    exists c, comparefn a b = Returns c
              /\ ((0 < c)%Z -> R b a) /\ (~ (0 < c)%Z -> R a b).

Lemma insert_HdRel y x rest l :
  Store.insert comparefn x rest = Returns l ->
  R y x -> HdRel R y rest -> HdRel R y l.
Proof.
  destruct rest as [|z rest']; simpl.
  - intros [= <-] Hyx _. now constructor.
  - destruct (comparefn x z) as [c|e]; simpl; [|discriminate].
    destruct (0 <? c)%Z.
    + destruct (Store.insert comparefn x rest') as [r|e]; simpl; [|discriminate].
      intros [= <-] _ Hyz. inversion Hyz; subst. now constructor.
    + intros [= <-] Hyx _. now constructor.
Qed.

Lemma insert_sorted x sorted l :
  known x -> Forall known sorted -> Sorted R sorted ->
  Store.insert comparefn x sorted = Returns l -> Sorted R l.
Proof.
  intros Hx Hk. revert l.
  induction Hk as [|y rest Hy Hrest IH]; intros l Hs; simpl.
  - intros [= <-]. repeat constructor.
  - destruct (comparefn_order x y Hx Hy) as (c & -> & Hgt & Hle). simpl.
    inversion Hs as [|? ? Hsrest Hhd]; subst.
    destruct (0 <? c)%Z eqn:Hc.
    + destruct (Store.insert comparefn x rest) as [r|e] eqn:Hins; simpl; [|discriminate].
      intros [= <-]. constructor; [now apply IH|].
      eapply insert_HdRel; [exact Hins | | exact Hhd].
      apply Hgt. now apply Z.ltb_lt.
    + intros [= <-]. constructor; [assumption|]. constructor.
      apply Hle. intros Hpos. apply Z.ltb_lt in Hpos. congruence.
Qed.

Lemma sort_list_sorted l l' :
  Forall known l -> Store.sort_list comparefn l = Returns l' -> Sorted R l'.
Proof.
  intros Hk. revert l'. induction Hk as [|x rest Hx Hrest IH]; intros l'; simpl.
  - intros [= <-]. constructor.
  - destruct (Store.sort_list comparefn rest) as [s|e] eqn:Hs; simpl; [|discriminate].
    apply insert_sorted; [assumption | | now apply IH].
    apply sort_list_permutation in Hs.
    eapply Permutation_Forall; eassumption.
Qed.

Lemma sort_list_known_returns l :
  Forall known l -> exists l', Store.sort_list comparefn l = Returns l'.
Proof.
  apply sort_list_returns. intros a b Ha Hb.
  destruct (comparefn_order a b Ha Hb) as (c & Hc & _). eauto.
Qed.

End SortOrder.

(** Elements that the comparison function never puts after one another
    keep their order. *)
Section SortStable.

Context {A : Type} (comparefn : A -> A -> outcome Z) (p : A -> bool).

Hypothesis tied :
  forall a b c, p a = true -> p b = true -> comparefn a b = Returns c -> ~ (0 < c)%Z.

Lemma insert_filter x sorted l :
  Store.insert comparefn x sorted = Returns l ->
  filter p l = filter p (x :: sorted).
Proof.
  revert l. induction sorted as [|y rest IH]; intros l; simpl.
  - now intros [= <-].
  - destruct (comparefn x y) as [c|e] eqn:Hc; simpl; [|discriminate].
    destruct (0 <? c)%Z eqn:Hpos.
    + destruct (Store.insert comparefn x rest) as [r|e]; simpl; [|discriminate].
      intros [= <-]. simpl. rewrite (IH r eq_refl). simpl.
      destruct (p x) eqn:Hpx, (p y) eqn:Hpy; try reflexivity.
      exfalso. apply (tied x y c Hpx Hpy Hc). now apply Z.ltb_lt.
    + now intros [= <-].
Qed.

Lemma sort_list_filter l l' :
  Store.sort_list comparefn l = Returns l' -> filter p l' = filter p l.
Proof.
  revert l'. induction l as [|x rest IH]; intros l'; simpl.
  - now intros [= <-].
  - destruct (Store.sort_list comparefn rest) as [s|e]; simpl; [|discriminate].
    intros Hins. rewrite (insert_filter _ _ _ Hins). simpl.
    now rewrite (IH s eq_refl).
Qed.

End SortStable.

(** ** The candidate-search table, sorted *)

(** When [sortedResults] returns, the new array holds what the sort makes
    of the input. *)
Lemma sortedResults_returns_sort_list StringToNumber order orderBy results h r' h' :
  sortedResults StringToNumber order orderBy results h = (Returns r', h') ->
  Store.sort_list (comparator StringToNumber order orderBy) (elements_of h results)
  = Returns (Store.read h' r').
Proof.
  intros H.
  destruct (sortedResults_cases StringToNumber order orderBy results h)
    as [[E Hempty] | (r0 & -> & _ & [(l & Hs & E) | (e & _ & E)])];
    rewrite E in H; try discriminate; injection H as <- <-;
    rewrite read_alloc_new.
  - destruct results as [r|]; simpl; [rewrite Hempty|]; reflexivity.
  - exact Hs.
Qed.

Section SortedByKey.

Context {K : Type} (inj : K -> primitive) (le : K -> K -> Prop).
Variable StringToNumber : string -> number.

Hypothesis lt_le :
  forall a b, less_than StringToNumber (inj a) (inj b) = true -> le a b.
Hypothesis not_lt_le :
  forall a b, less_than StringToNumber (inj b) (inj a) = false -> le a b.
Hypothesis le_transitive : forall a b c, le a b -> le b c -> le a c.

Variable order : Order.
Variable orderBy : OrderBy.
Variable key : MatchResultRecord.t -> K.

Lemma three_way_in_order ka kb :
  ((0 < three_way StringToNumber order (inj ka) (inj kb))%Z -> in_order order le kb ka)
  /\ (~ (0 < three_way StringToNumber order (inj ka) (inj kb))%Z
      -> in_order order le ka kb).
Proof.
  unfold three_way, in_order.
  destruct (less_than StringToNumber (inj kb) (inj ka)) eqn:Hba;
    destruct (less_than StringToNumber (inj ka) (inj kb)) eqn:Hab;
    destruct order; split; intros H; try lia; auto.
Qed.

Lemma sortedResults_sorted_by_key results h :
  (forall row, In row (elements_of h results) ->
               sort_key orderBy row = Returns (inj (key row))) ->
  exists r' h',
    sortedResults StringToNumber order orderBy results h = (Returns r', h')
    /\ Permutation (elements_of h results) (Store.read h' r')
    /\ StronglySorted (fun a b => in_order order le (key a) (key b))
         (Store.read h' r')
    /\ r' = List.length h
    /\ (forall r, (r < List.length h)%nat -> Store.read h' r = Store.read h r).
Proof.
  intros Hkeys.
  set (known := fun row => In row (elements_of h results)).
  assert (Horder :
            forall a b, known a -> known b ->
              exists c, comparator StringToNumber order orderBy a b = Returns c
                        /\ ((0 < c)%Z -> in_order order le (key b) (key a))
                        /\ (~ (0 < c)%Z -> in_order order le (key a) (key b))).
  { intros a b Ha Hb. eexists. split.
    - apply comparator_by_sort_key; apply Hkeys; assumption.
    - apply three_way_in_order. }
  assert (Hknown : Forall known (elements_of h results))
    by (apply Forall_forall; intros row Hrow; exact Hrow).
  destruct (sort_list_known_returns _ known _ Horder _ Hknown) as (l & Hl).
  destruct (sortedResults_returns StringToNumber order orderBy results h)
    as (r' & h' & E).
  { destruct (OrderBy_eq_dec orderBy by_jobTitle) as [Hjob|Hne]; [right | now left].
    intros r ->. apply Forall_forall. intros row Hrow.
    specialize (Hkeys row Hrow). unfold sort_key in Hkeys. rewrite Hjob in Hkeys.
    unfold text_job_title.
    destruct (getJobTitle row); try discriminate. eauto. }
  exists r', h'. split; [exact E|].
  pose proof (sortedResults_returns_sort_list _ _ _ _ _ _ _ E) as Hs.
  split; [|split; [|split]].
  - eapply sort_list_permutation; exact Hs.
  - apply Sorted_StronglySorted.
    + intros a b c. unfold in_order. destruct order; eauto.
    + eapply sort_list_sorted; [exact Horder | exact Hknown | exact Hs].
  - apply (sortedResults_permutation _ _ _ _ _ _ _ E).
  - apply (sortedResults_leaves_arrays_unchanged _ _ _ _ _ _ _ E).
Qed.

End SortedByKey.

Lemma finite_lt_le StringToNumber a b :
  less_than StringToNumber (PNumber (Finite a)) (PNumber (Finite b)) = true -> a <= b.
Proof. intros Hlt. apply Qlt_le_weak. now apply number_ltb_finite. Qed.

Lemma finite_not_lt_le StringToNumber a b :
  less_than StringToNumber (PNumber (Finite b)) (PNumber (Finite a)) = false -> a <= b.
Proof.
  intros Hlt. apply Qnot_lt_le. intros Hba.
  apply number_ltb_finite in Hba. simpl in Hlt. simpl in Hba. congruence.
Qed.

(** X1.  Sorting by a column whose values are ASCII text (id, candidate
    name, organization, creator, creation date; the lower-cased job title
    when every title is text) returns a new array, with every array that
    existed before unchanged, that holds the rows of the input, each
    once, in non-decreasing order of the text when ascending and
    non-increasing order when descending: every row stands before all
    rows that follow it in that order.  On ASCII text the order of the
    model is the order of the code units that JavaScript compares, and
    the lower-casing of the model is that of JavaScript. *)
Theorem sortedResults_sorts_text :
  forall StringToNumber order orderBy results h
         (key : MatchResultRecord.t -> string),
    (forall row, In row (elements_of h results) ->
                 sort_key orderBy row = Returns (PString (key row))
                 /\ ascii_text (key row)) ->
    exists r' h',
      sortedResults StringToNumber order orderBy results h = (Returns r', h')
      /\ Permutation (elements_of h results) (Store.read h' r')
      /\ StronglySorted
           (fun a b =>
              in_order order (fun s t => String.leb s t = true) (key a) (key b))
           (Store.read h' r')
      /\ r' = List.length h
      /\ (forall r, (r < List.length h)%nat -> Store.read h' r = Store.read h r).
Proof.
  intros S order orderBy results h key Hkeys.
  apply (sortedResults_sorted_by_key PString (fun s t => String.leb s t = true) S
           ltb_leb not_ltb_leb leb_trans order orderBy key results h).
  intros row Hrow. apply (Hkeys row Hrow).
Qed.

Lemma sortedResults_sorts_text_witness :
  let bob := sample_record "r1" "Bob" (JString "Engineer") in
  let ann := sample_record "r2" "Ann" (JString "Analyst") in
  let cy := sample_record "r3" "Cy" (JString "Clerk") in
  sortedResults (fun _ => NaN) asc by_candidateName (Some 0%nat) [[bob; ann; cy]]
  = (Returns 1%nat, [[bob; ann; cy]; [ann; bob; cy]])
  /\ exists r' h',
       sortedResults (fun _ => NaN) asc by_candidateName (Some 0%nat) [[bob; ann; cy]]
       = (Returns r', h')
       /\ Permutation [bob; ann; cy] (Store.read h' r')
       /\ StronglySorted
            (fun a b =>
               String.leb (MatchResultRecord.candidateName a)
                          (MatchResultRecord.candidateName b) = true)
            (Store.read h' r')
       /\ r' = 1%nat
       /\ (forall r, (r < 1)%nat -> Store.read h' r = Store.read [[bob; ann; cy]] r).
Proof.
  intros bob ann cy. split; [reflexivity|].
  apply (sortedResults_sorts_text (fun _ => NaN) asc by_candidateName
           (Some 0%nat) [[bob; ann; cy]] MatchResultRecord.candidateName).
  intros row [<- | [<- | [<- | []]]]; split; reflexivity.
Defined.

(** X2.  Sorting by a column whose values are finite numbers (job id,
    profile id, overall score) returns a new array, with every array that
    existed before unchanged, that holds the rows of the input, each
    once, in non-decreasing numeric order when ascending and
    non-increasing order when descending. *)
Theorem sortedResults_sorts_numbers :
  forall StringToNumber order orderBy results h
         (key : MatchResultRecord.t -> Q),
    (forall row, In row (elements_of h results) ->
                 sort_key orderBy row = Returns (PNumber (Finite (key row)))) ->
    exists r' h',
      sortedResults StringToNumber order orderBy results h = (Returns r', h')
      /\ Permutation (elements_of h results) (Store.read h' r')
      /\ StronglySorted (fun a b => in_order order Qle (key a) (key b))
           (Store.read h' r')
      /\ r' = List.length h
      /\ (forall r, (r < List.length h)%nat -> Store.read h' r = Store.read h r).
Proof.
  intros S order orderBy results h key Hkeys.
  apply (sortedResults_sorted_by_key (fun q => PNumber (Finite q)) Qle S
           (finite_lt_le S) (finite_not_lt_le S) Qle_trans
           order orderBy key results h Hkeys).
Qed.

Lemma sortedResults_sorts_numbers_witness :
  let low := sample_scored_record "r1" "Bob" 40 in
  let high := sample_scored_record "r2" "Ann" 90 in
  let middle := sample_scored_record "r3" "Cy" (625 # 10) in
  sortedResults (fun _ => NaN) desc by_overallScore (Some 0%nat) [[low; high; middle]]
  = (Returns 1%nat, [[low; high; middle]; [high; middle; low]])
  /\ exists r' h',
       sortedResults (fun _ => NaN) desc by_overallScore (Some 0%nat)
         [[low; high; middle]]
       = (Returns r', h')
       /\ Permutation [low; high; middle] (Store.read h' r')
       /\ StronglySorted
            (fun a b =>
               finite_value (MatchResultRecord.overallScore b)
               <= finite_value (MatchResultRecord.overallScore a))
            (Store.read h' r')
       /\ r' = 1%nat
       /\ (forall r, (r < 1)%nat -> Store.read h' r = Store.read [[low; high; middle]] r).
Proof.
  intros low high middle. split; [reflexivity|].
  apply (sortedResults_sorts_numbers (fun _ => NaN) desc by_overallScore
           (Some 0%nat) [[low; high; middle]]
           (fun row => finite_value (MatchResultRecord.overallScore row))).
  intros row [<- | [<- | [<- | []]]]; reflexivity.
Defined.

(** X3.  The sort is stable: when the keys of the rows are all text or
    all finite numbers, rows that have the same key stand in the new
    array in the order they had in the input. *)
Theorem sortedResults_stable :
  forall StringToNumber order orderBy results h (p : MatchResultRecord.t -> bool),
    comparable_keys orderBy (elements_of h results) ->
    (forall a b, p a = true -> p b = true ->
                 sort_key orderBy a = sort_key orderBy b) ->
    exists r' h',
      sortedResults StringToNumber order orderBy results h = (Returns r', h')
      /\ filter p (Store.read h' r') = filter p (elements_of h results).
Proof.
  intros S order orderBy results h p Hkeys Hsame.
  assert (Hret : exists r' h',
             sortedResults S order orderBy results h = (Returns r', h')).
  { destruct Hkeys as [(key & Hk) | (key & Hk)].
    - destruct (sortedResults_sorted_by_key PString
                  (fun s t => String.leb s t = true) S
                  ltb_leb not_ltb_leb leb_trans order orderBy key results h Hk)
        as (r' & h' & E & _); eauto.
    - destruct (sortedResults_sorted_by_key (fun q => PNumber (Finite q)) Qle S
                  (finite_lt_le S) (finite_not_lt_le S) Qle_trans
                  order orderBy key results h Hk)
        as (r' & h' & E & _); eauto. }
  destruct Hret as (r' & h' & E). exists r', h'. split; [exact E|].
  apply sortedResults_returns_sort_list in E.
  eapply sort_list_filter; [|exact E].
  intros a b c Ha Hb Hc.
  destruct (comparator_returns_keys _ _ _ _ _ _ Hc) as (ka & kb & Hka & Hkb).
  rewrite (comparator_by_sort_key _ _ _ _ _ _ _ Hka Hkb) in Hc.
  injection Hc as <-.
  specialize (Hsame a b Ha Hb). rewrite Hka, Hkb in Hsame. injection Hsame as ->.
  rewrite three_way_tied. lia.
Qed.

Lemma sortedResults_stable_witness :
  let rows := [ sample_record "r1" "Ann" (JString "Engineer");
                sample_record "r2" "Bob" (JString "Analyst");
                sample_record "r3" "Ann" (JString "Clerk") ]%string in
  let named_ann row := (MatchResultRecord.candidateName row =? "Ann")%string in
  exists r' h',
    sortedResults (fun _ => NaN) desc by_candidateName (Some 0%nat) [rows]
    = (Returns r', h')
    /\ filter named_ann (Store.read h' r') = filter named_ann rows.
Proof.
  intros rows named_ann.
  apply (sortedResults_stable (fun _ => NaN) desc by_candidateName
           (Some 0%nat) [rows] named_ann).
  - left. exists MatchResultRecord.candidateName. intros row _. reflexivity.
  - intros a b Ha Hb. unfold named_ann in Ha, Hb.
    apply String.eqb_eq in Ha, Hb. unfold sort_key, property. congruence.
Defined.

(** ** The results card and the component state *)

(** X4.  One render of the results card, for results that are an array
    of the store and a sort that does not meet a job title that is not
    text: the render returns and leaves every existing array as it was;
    it shows no table while loading or when there are no results, and
    otherwise one body row per result, the rows being those of a
    rearrangement of the results; and the number of candidates the page
    announces after the search is the number of rows shown. *)
Theorem results_table_shows_every_result :
  forall Number_toString StringToNumber st loading results h matchResults,
    (results < List.length h)%nat ->
    Store.read h results = fst (handleSearch_response matchResults) ->
    CandidateSearchState.orderBy st <> by_jobTitle
    \/ Forall text_job_title (Store.read h results) ->
    exists view h',
      results_table Number_toString StringToNumber st loading results h
      = (Returns view, h')
      /\ (forall r, (r < List.length h)%nat -> Store.read h' r = Store.read h r)
      /\ match view with
         | None => loading = true \/ Store.read h results = []
         | Some rows =>
             loading = false
             /\ (exists sorted,
                    Permutation (Store.read h results) sorted
                    /\ rows = map (table_row Number_toString) sorted)
             /\ snd (handleSearch_response matchResults)
                = {| StatusMessage.type := "success";
                     StatusMessage.text :=
                       ("Found " ++ index_key (List.length rows)
                        ++ " matching candidate"
                        ++ (if (1 <? List.length rows)%nat then "s" else "")
                        ++ ".")%string |}
         end.
Proof.
  intros N S st loading results h matchResults Hvalid Hresults Hok.
  destruct (sortedResults_returns S
              (CandidateSearchState.order st) (CandidateSearchState.orderBy st)
              (@Some Store.ref results) h) as (r' & h1 & E).
  { destruct Hok as [Hne | Htext]; [now left | right]. now intros r [= <-]. }
  pose proof (sortedResults_leaves_arrays_unchanged _ _ _ _ _ _ _ E) as Hframe.
  destruct (sortedResults_permutation _ _ _ _ _ _ _ E) as (_ & Hperm).
  assert (Hrun :
            results_table N S st loading results h
            = (Returns
                 (if negb loading && (0 <? List.length (Store.read h results))%nat
                  then Some (map (table_row N) (Store.read h1 r'))
                  else None),
               h1)).
  { unfold results_table, Store.bind, Store.array_length, array_elements, Store.ret.
    rewrite E. cbv beta iota. rewrite (Hframe results Hvalid).
    destruct (negb loading && _); reflexivity. }
  eexists _, h1. split; [exact Hrun|]. split; [exact Hframe|].
  destruct (negb loading && (0 <? List.length (Store.read h results))%nat) eqn:Hshow.
  - apply andb_true_iff in Hshow. destruct Hshow as (Hload & Hlen).
    apply negb_true_iff in Hload.
    split; [exact Hload|]. split; [eexists; split; [exact Hperm | reflexivity]|].
    rewrite length_map, <- (Permutation_length Hperm), Hresults.
    rewrite Hresults in Hlen.
    unfold handleSearch_response in *. cbn [fst snd] in *.
    now rewrite Hlen.
  - apply andb_false_iff in Hshow. destruct Hshow as [Hload | Hlen].
    + left. now apply negb_false_iff in Hload.
    + right. destruct (Store.read h results); [reflexivity | discriminate].
Qed.

Lemma results_table_shows_every_result_witness :
  let rows := [ sample_record "r1" "Bob" (JString "Engineer");
                sample_record "r2" "Ann" (JString "Analyst") ]%string in
  exists view h',
    results_table (fun _ => "NaN"%string) (fun _ => NaN) initialState false 0%nat [rows]
    = (Returns view, h')
    /\ (forall r, (r < 1)%nat -> Store.read h' r = Store.read [rows] r)
    /\ match view with
       | None => false = true \/ rows = []
       | Some shown =>
           false = false
           /\ (exists sorted,
                  Permutation rows sorted
                  /\ shown = map (table_row (fun _ => "NaN"%string)) sorted)
           /\ snd (handleSearch_response (Some rows))
              = {| StatusMessage.type := "success";
                   StatusMessage.text :=
                     ("Found " ++ index_key (List.length shown)
                      ++ " matching candidate"
                      ++ (if (1 <? List.length shown)%nat then "s" else "")
                      ++ ".")%string |}
       end.
Proof.
  intros rows.
  apply (results_table_shows_every_result (fun _ => "NaN"%string) (fun _ => NaN)
           initialState false 0%nat [rows] (Some rows)).
  - simpl. lia.
  - reflexivity.
  - left. discriminate.
Defined.

(** X5.  A click on a column header selects that column.  It sorts
    ascending unless the column was already the selected one and sorted
    ascending, so that a second click on the same header reverses the
    direction and a third click restores what the first one gave. *)
Theorem handleRequestSort_alternates :
  forall property st,
    let once := handleRequestSort property st in
    let twice := handleRequestSort property once in
    CandidateSearchState.orderBy once = property
    /\ (CandidateSearchState.order once = desc
        <-> CandidateSearchState.orderBy st = property
            /\ CandidateSearchState.order st = asc)
    /\ CandidateSearchState.order twice <> CandidateSearchState.order once
    /\ handleRequestSort property twice = once.
Proof.
  intros property st. unfold handleRequestSort. cbn.
  destruct (OrderBy_eq_dec property property) as [_|Hne]; [|congruence].
  destruct (OrderBy_eq_dec (CandidateSearchState.orderBy st) property) as [Heq|Hne];
    destruct (CandidateSearchState.order st); cbn;
    repeat split; try congruence; try tauto; try discriminate.
  all: try (intros (H1 & H2); congruence).
Qed.

Lemma handleEvent_dialog_invariant st ev :
  (CandidateSearchState.isDialogOpen st = true
   <-> CandidateSearchState.selectedMatch st <> None) ->
  (CandidateSearchState.isDialogOpen (handleEvent st ev) = true
   <-> CandidateSearchState.selectedMatch (handleEvent st ev) <> None).
Proof.
  intros Hinv. destruct ev as [[m|]| |property]; simpl; try exact Hinv.
  - split; [discriminate | reflexivity].
  - split; [discriminate | congruence].
Qed.

Lemma fold_handleEvent_dialog_invariant events st :
  (CandidateSearchState.isDialogOpen st = true
   <-> CandidateSearchState.selectedMatch st <> None) ->
  let st' := fold_left handleEvent events st in
  (CandidateSearchState.isDialogOpen st' = true
   <-> CandidateSearchState.selectedMatch st' <> None).
Proof.
  revert st. induction events as [|ev rest IH]; intros st Hinv; simpl; [exact Hinv|].
  apply IH. now apply handleEvent_dialog_invariant.
Qed.

(** X6.  Whatever the user has done (View on any rows, also rows without
    match data, closing the dialog, header clicks), the dialog flag is
    set exactly when a match is selected.  So the details dialog is
    mounted only open, and it is mounted whenever the flag is set.  A
    View click on a row without match data changes nothing. *)
Theorem dialog_open_iff_match_selected :
  forall Number_toString events,
    let st := after_events events in
    (CandidateSearchState.isDialogOpen st = true
     <-> CandidateSearchState.selectedMatch st <> None)
    /\ match details_dialog Number_toString st with
       | Some (open, view) =>
           open = true
           /\ exists m, CandidateSearchState.selectedMatch st = Some m
                        /\ view = MatchResultDialog Number_toString (Some m)
       | None => CandidateSearchState.isDialogOpen st = false
       end
    /\ after_events (events ++ [ViewClick None]) = st.
Proof.
  intros N events st.
  assert (Hinv : CandidateSearchState.isDialogOpen st = true
                 <-> CandidateSearchState.selectedMatch st <> None).
  { apply fold_handleEvent_dialog_invariant. simpl. split; [discriminate | congruence]. }
  split; [exact Hinv|]. split.
  - unfold details_dialog.
    destruct (CandidateSearchState.selectedMatch st) as [m|] eqn:Hm.
    + split; [apply Hinv; discriminate | eauto].
    + destruct (CandidateSearchState.isDialogOpen st); [|reflexivity].
      exfalso. now apply (proj1 Hinv).
  - unfold after_events. now rewrite fold_left_app.
Qed.

(** ** What the cells show *)

(** X7.  A score that is a whole number of hundredths is shown exactly:
    the overall-score cell of a table row is a minus sign when the score
    is negative, then digits, a point and two digits, and the digits read
    as a number are the hundredths of the score. *)
Theorem overallScore_cell_exact_on_hundredths :
  forall Number_toString row (q : Q) (k : Z),
    MatchResultRecord.overallScore row = Finite q ->
    q == k # 100 ->
    (Z.abs k < 10 ^ 23)%Z ->
    exists a b,
      cell_overallScore (table_row Number_toString row)
      = ((if (k <? 0)%Z then "-" else "") ++ a ++ "." ++ b)%string
      /\ all_digits a = true /\ all_digits b = true
      /\ a <> ""%string /\ String.length b = 2%nat
      /\ digits_value (a ++ b) = Some (Z.to_N (Z.abs k)).
Proof.
  intros N row q k Hscore Hq Hk. simpl. rewrite Hscore.
  assert (Habs : Qabs q == inject_Z (Z.abs k) / 100).
  { rewrite Hq. unfold Qeq. simpl. lia. }
  destruct (toFixed_two_decimal_places N q)
    as (a & b & n & Hshape & Ha & Hda & Hdb & Hlen & Hval & Hclose).
  { rewrite Habs. apply Qlt_shift_div_r; [reflexivity|].
    change 100 with (inject_Z 100).
    rewrite <- inject_Z_mult, <- Zlt_Qlt.
    change (10 ^ 21 * 100)%Z with (10 ^ 23)%Z. exact Hk. }
  exists a, b. rewrite Hshape.
  assert (Hsign : (if Qlt_le_dec q 0 then "-" else "")%string
                  = (if (k <? 0)%Z then "-" else "")%string).
  { destruct (Qlt_le_dec q 0) as [Hneg|Hpos]; rewrite Hq in *;
      unfold Qlt, Qle in *; simpl in *;
      destruct (k <? 0)%Z eqn:Hk0; try reflexivity;
      [apply Z.ltb_ge in Hk0 | apply Z.ltb_lt in Hk0]; lia. }
  rewrite Hsign. repeat split; try assumption.
  rewrite Hval. f_equal.
  rewrite Habs in Hclose. apply Qabs_Qle_condition in Hclose.
  destruct Hclose as (Hlo & Hhi).
  assert (Hlt1 : inject_Z (Z.of_N n) < inject_Z (Z.abs k + 1)).
  { rewrite inject_Z_plus. change (inject_Z 1) with 1.
    unfold Qdiv in *. change (/ 100) with (1 # 100) in *. lra. }
  assert (Hlt2 : inject_Z (Z.abs k) < inject_Z (Z.of_N n + 1)).
  { rewrite inject_Z_plus. change (inject_Z 1) with 1.
    unfold Qdiv in *. change (/ 100) with (1 # 100) in *. lra. }
  rewrite <- Zlt_Qlt in Hlt1, Hlt2. lia.
Qed.

Lemma overallScore_cell_exact_on_hundredths_witness :
  exists a b,
    cell_overallScore
      (table_row (fun _ => "NaN"%string)
         (sample_record "r1" "Ann" (JString "Engineer")))
    = ("" ++ a ++ "." ++ b)%string
    /\ all_digits a = true /\ all_digits b = true
    /\ a <> ""%string /\ String.length b = 2%nat
    /\ digits_value (a ++ b) = Some 6250%N.
Proof.
  apply (overallScore_cell_exact_on_hundredths (fun _ => "NaN"%string)
           (sample_record "r1" "Ann" (JString "Engineer")) (625 # 10) 6250%Z).
  - reflexivity.
  - reflexivity.
  - reflexivity.
Defined.

Lemma filter_expanded_mapi_from Number_toString results k :
  filter Dialog.defaultExpanded (mapi_from k (accordion Number_toString) results)
  = firstn (3 - k) (mapi_from k (accordion Number_toString) results).
Proof.
  revert k. induction results as [|result rest IH]; intros k; cbn [mapi_from filter].
  - now rewrite firstn_nil.
  - change (Dialog.defaultExpanded (accordion Number_toString k result))
      with (k <? 3)%nat.
    rewrite IH. destruct (k <? 3)%nat eqn:Hk.
    + apply Nat.ltb_lt in Hk. replace (3 - k)%nat with (S (3 - S k)) by lia.
      reflexivity.
    + apply Nat.ltb_ge in Hk.
      replace (3 - k)%nat with 0%nat by lia.
      replace (3 - S k)%nat with 0%nat by lia. reflexivity.
Qed.

(** X8.  In the report, the accordions that start expanded are the first
    three of the breakdown (all of them when there are fewer), whatever
    the fields and their scores. *)
Theorem first_three_accordions_expanded :
  forall Number_toString response overall breakdown,
    MatchResultDialog Number_toString (Some response)
    = Dialog.MatchAnalysisReport overall breakdown ->
    filter Dialog.defaultExpanded breakdown = firstn 3 breakdown.
Proof.
  intros N response overall breakdown. simpl.
  destruct (MatchResultResponse.results response) as [results|]; [|discriminate].
  intros [= _ <-]. apply (filter_expanded_mapi_from N results 0).
Qed.

Lemma first_three_accordions_expanded_witness :
  let response :=
    {| MatchResultResponse.results :=
         Some [ sample_field "job_title" 100 (JString "Engineer");
                sample_field "skills" 80 (JArray [JString "java"; JString "sql"]);
                sample_field "education" 0 (JString "BSc");
                sample_field "experience" 60 (JString "5 years");
                sample_field "location" 100 (JString "Pune") ];
       MatchResultResponse.overall_score_weighted := Some (Finite 68);
       MatchResultResponse.overall_score_average_all := Some (Finite 68);
       MatchResultResponse.overall_score_average_non_zero := Some (Finite 85);
       MatchResultResponse.max_score := Some (Finite 100);
       MatchResultResponse.max_score_field := "job_title" |}%string in
  exists overall breakdown,
    MatchResultDialog (fun _ => "NaN"%string) (Some response)
    = Dialog.MatchAnalysisReport overall breakdown
    /\ map Dialog.summary_field breakdown
       = ["job_title"; "skills"; "education"; "experience"; "location"]%string
    /\ map Dialog.summary_field (firstn 3 breakdown)
       = ["job_title"; "skills"; "education"]%string
    /\ filter Dialog.defaultExpanded breakdown = firstn 3 breakdown.
Proof.
  intros response. eexists _, _. split; [reflexivity|].
  split; [reflexivity|]. split; [reflexivity|].
  apply (first_three_accordions_expanded (fun _ => "NaN"%string)
           response _ _ eq_refl).
Defined.

(** ** The labels of the rule overlay *)

Lemma index_key_injective i j : index_key i = index_key j -> i = j.
Proof.
  unfold index_key. intros H.
  apply (f_equal NilEmpty.uint_of_string) in H.
  rewrite !NilEmpty.usu in H. injection H as H.
  apply (f_equal Nat.of_uint) in H.
  now rewrite !DecimalNat.Unsigned.of_to in H.
Qed.

Lemma map_fst_mapi_from_index {A B : Type} (f : nat -> A -> B) (l : list A) k :
  map fst (mapi_from k (fun i v => (index_key i, f i v)) l)
  = map index_key (seq k (List.length l)).
Proof.
  revert k. induction l as [|x l IH]; intros k; simpl; [reflexivity|].
  now rewrite IH.
Qed.

Lemma NoDup_index_keys {A B : Type} (f : nat -> A -> B) (l : list A) :
  NoDup (map fst (mapi (fun i v => (index_key i, f i v)) l)).
Proof.
  unfold mapi. rewrite map_fst_mapi_from_index.
  apply Finite.Injective_map_NoDup; [exact index_key_injective | apply seq_NoDup].
Qed.

Lemma NoDup_Object_entries n :
  distinct_names (node_value n) -> NoDup (map fst (Object_entries n)).
Proof.
  unfold Object_entries, distinct_names.
  destruct (node_value n) as [| | | s | items | props]; intros Hd;
    try constructor; try apply NoDup_index_keys.
  rewrite map_map. simpl. exact Hd.
Qed.

Lemma NoDup_map_fst_filter {A B : Type} (p : A * B -> bool) (l : list (A * B)) :
  NoDup (map fst l) -> NoDup (map fst (filter p l)).
Proof.
  induction l as [|x l IH]; simpl; [intros _; constructor|].
  intros Hd. inversion Hd as [|? ? Hnotin Hrest]; subst.
  destruct (p x); simpl; [|now apply IH].
  constructor; [|now apply IH].
  intros Hin. apply Hnotin.
  apply in_map_iff in Hin. destruct Hin as (y & Hy & Hin).
  apply filter_In in Hin. apply in_map_iff. exists y. tauto.
Qed.

(** X9.  No two cards of a group of the rule overlay have the same
    label (their React key), for rule data as JSON.parse returns it: the
    property names of the rule object, and of its keywordmatch object,
    are distinct. *)
Theorem rule_labels_distinct :
  forall ruleData,
    distinct_names ruleData ->
    (forall keywordmatch,
        get_property ruleData "keywordmatch" = Some keywordmatch ->
        distinct_names keywordmatch) ->
    NoDup (map fst (getGeneralRuleFields ruleData))
    /\ NoDup (map fst (getKeywordMatchFields ruleData)).
Proof.
  intros ruleData Hroot Hkeyword. split.
  - unfold getGeneralRuleFields.
    destruct (negb (truthy ruleData)); [constructor|].
    apply NoDup_map_fst_filter. now apply NoDup_Object_entries.
  - unfold getKeywordMatchFields.
    destruct (negb (truthy ruleData)); [constructor|].
    destruct (get_property ruleData "keywordmatch") as [keywordmatch|];
      [|constructor].
    destruct (negb (truthy keywordmatch)); [constructor|].
    apply NoDup_map_fst_filter. apply NoDup_Object_entries. simpl.
    now apply Hkeyword.
Qed.

Lemma rule_labels_distinct_witness :
  let ruleData :=
    JObject [ ("job_title", JObject [("data", JString "Engineer")]);
              ("jd_version", JNumber (Finite 2));
              ("yoe", JObject [("data", JArray [JString "5"; JString "8"])]);
              ("keywordmatch",
               JObject [ ("languages", JObject [("data", JArray [JString "java"])]);
                         ("retired", JNull);
                         ("tools", JObject [("data", JArray [JString "git"])]);
                         ("certifications", JObject [("data", JArray [])]) ]) ]%string in
  map fst (getGeneralRuleFields ruleData) = ["job_title"; "yoe"]%string
  /\ map fst (getKeywordMatchFields ruleData)
     = ["languages"; "tools"; "certifications"]%string
  /\ NoDup (map fst (getGeneralRuleFields ruleData))
  /\ NoDup (map fst (getKeywordMatchFields ruleData)).
Proof.
  intros ruleData. split; [reflexivity|]. split; [reflexivity|].
  apply (rule_labels_distinct ruleData).
  - simpl. repeat constructor; simpl; intuition discriminate.
  - intros keywordmatch [= <-]. simpl.
    repeat constructor; simpl; intuition discriminate.
Defined.

Lemma length_replace_underscores s :
  String.length (replace_underscores s) = String.length s.
Proof. induction s as [|c r IH]; simpl; [reflexivity | now rewrite IH]. Qed.

Lemma get_replace_underscores s i :
  String.get i (replace_underscores s)
  = option_map (fun c => if (c =? "_")%char then " "%char else c) (String.get i s).
Proof.
  revert i. induction s as [|c r IH]; intros i; simpl; [reflexivity|].
  destruct i as [|i]; [reflexivity | apply IH].
Qed.

(** X10.  For a label of ASCII characters (the keys of a rule document),
    the heading of a rule card has the length of the label; from
    its second character on it is the label with every underscore
    replaced by a space, so that no underscore is left there.  Only the
    first character is exempt: it is upper-cased, and a leading
    underscore stays. *)
Theorem capitalizedLabel_replaces_underscores :
  forall label,
    String.length (capitalizedLabel label) = String.length label
    /\ String.get 0 (capitalizedLabel label)
       = option_map upper_char (String.get 0 label)
    /\ forall i,
         String.get (S i) (capitalizedLabel label)
         = option_map (fun c => if (c =? "_")%char then " "%char else c)
             (String.get (S i) label)
         /\ String.get (S i) (capitalizedLabel label) <> Some "_"%char.
Proof.
  intros [|c r]; unfold capitalizedLabel; simpl.
  - repeat split; congruence.
  - rewrite length_replace_underscores. repeat split.
    + apply get_replace_underscores.
    + rewrite get_replace_underscores.
      destruct (String.get i r) as [d|]; simpl; [|discriminate].
      destruct (d =? "_")%char eqn:Hd; [discriminate|].
      apply Ascii.eqb_neq in Hd. congruence.
Qed.

(** ** The organization ID of the registration form *)

Lemma lower_char_alphanumeric c :
  is_alphanumeric c = true -> is_lower_alphanumeric (lower_char c) = true.
Proof.
  destruct c as [[] [] [] [] [] [] [] []]; vm_compute; congruence.
Qed.

Lemma lower_char_fixed c :
  is_lower_alphanumeric c = true -> lower_char c = c /\ is_alphanumeric c = true.
Proof.
  destruct c as [[] [] [] [] [] [] [] []]; vm_compute; split; congruence.
Qed.

Lemma all_chars_keep_chars p s : all_chars p (keep_chars p s) = true.
Proof.
  induction s as [|c r IH]; simpl; [reflexivity|].
  destruct (p c) eqn:Hc; simpl; [now rewrite Hc|assumption].
Qed.

Lemma all_chars_substring p n m s :
  all_chars p s = true -> all_chars p (substring n m s) = true.
Proof.
  revert n m. induction s as [|c r IH]; intros n m Hs.
  - destruct n, m; reflexivity.
  - simpl in Hs. apply andb_true_iff in Hs. destruct Hs as (Hc & Hr).
    destruct n as [|n]; [destruct m as [|m]|]; simpl;
      [reflexivity | rewrite Hc; now apply IH | now apply IH].
Qed.

Lemma length_substring_le n m s : (String.length (substring n m s) <= m)%nat.
Proof.
  revert n m. induction s as [|c r IH]; intros n m.
  - destruct n, m; simpl; lia.
  - destruct n as [|n]; [destruct m as [|m]|]; simpl; [lia | | apply IH].
    specialize (IH 0%nat m). lia.
Qed.

Lemma substring_all m s : (String.length s <= m)%nat -> substring 0 m s = s.
Proof.
  revert m. induction s as [|c r IH]; intros m Hm.
  - destruct m; reflexivity.
  - destruct m as [|m]; simpl in *; [lia|]. f_equal. apply IH. lia.
Qed.

Lemma all_chars_toLowerCase s :
  all_chars is_alphanumeric s = true ->
  all_chars is_lower_alphanumeric (toLowerCase s) = true.
Proof.
  induction s as [|c r IH]; simpl; [reflexivity|].
  intros Hs. apply andb_true_iff in Hs. destruct Hs as (Hc & Hr).
  now rewrite (lower_char_alphanumeric c Hc), IH.
Qed.

Lemma length_toLowerCase s : String.length (toLowerCase s) = String.length s.
Proof. induction s as [|c r IH]; simpl; [reflexivity | now rewrite IH]. Qed.

Lemma lower_alphanumeric_fixed s :
  all_chars is_lower_alphanumeric s = true ->
  toLowerCase s = s /\ keep_chars is_alphanumeric s = s.
Proof.
  induction s as [|c r IH]; simpl; [now split|].
  intros Hs. apply andb_true_iff in Hs. destruct Hs as (Hc & Hr).
  destruct (lower_char_fixed c Hc) as (-> & ->).
  destruct (IH Hr) as (-> & ->). now split.
Qed.

Lemma organizationId_typed_is_text value formData :
  organization_id_text
    (RegisterFormData.organizationId (handleChange name_organizationId value formData)).
Proof.
  simpl. split.
  - rewrite length_toLowerCase. apply length_substring_le.
  - apply all_chars_toLowerCase, all_chars_substring, all_chars_keep_chars.
Qed.

(** X11.  The organization ID held by the registration form is, after
    any sequence of changes to its inputs, at most six characters, each a
    digit or a lower-case letter; and a value typed into the organization
    ID input is stored as typed exactly when it has that form. *)
Theorem organizationId_is_six_lower_alphanumeric :
  (forall events,
      organization_id_text (RegisterFormData.organizationId (after_changes events)))
  /\ (forall value formData,
         RegisterFormData.organizationId
           (handleChange name_organizationId value formData) = value
         <-> organization_id_text value).
Proof.
  split.
  - intros events. unfold after_changes.
    assert (Hinit : organization_id_text
                      (RegisterFormData.organizationId initialFormData))
      by (split; [simpl; lia | reflexivity]).
    revert Hinit. generalize initialFormData.
    induction events as [|[name value] rest IH]; intros formData Hinv; simpl;
      [exact Hinv|].
    apply IH. destruct name; try exact Hinv.
    apply organizationId_typed_is_text.
  - intros value formData. split.
    + intros Hfixed. rewrite <- Hfixed at 1. apply organizationId_typed_is_text.
    + intros (Hlen & Hchars). simpl.
      destruct (lower_alphanumeric_fixed value Hchars) as (Hlower & Hkeep).
      now rewrite Hkeep, (substring_all 6 value Hlen).
Qed.

(** ** The upload components *)

Lemma subsequence_nil_l {A : Type} (l : list A) : subsequence [] l.
Proof. induction l; constructor; assumption. Qed.

Lemma subsequence_app_l {A : Type} (p l1 l2 : list A) :
  subsequence l1 l2 -> subsequence l1 (p ++ l2).
Proof. intros H. induction p; simpl; [assumption | now constructor]. Qed.

Lemma uploaded_files_app a b :
  uploaded_files (a ++ b) = (uploaded_files a ++ uploaded_files b)%list.
Proof. apply flat_map_app. Qed.

Lemma close_count_app a b : close_count (a ++ b) = (close_count a + close_count b)%nat.
Proof. unfold close_count. now rewrite filter_app, length_app. Qed.

Lemma DocxUploadModal_trace events selectedFile :
  let calls := snd (run_events DocxUploadModal.handle selectedFile events) in
  subsequence (uploaded_files calls)
    ((match selectedFile with Some file => [file] | None => [] end)
     ++ chosen_files events)
  /\ close_count calls = List.length (uploaded_files calls).
Proof.
  revert selectedFile.
  induction events as [|ev rest IH]; intros selectedFile; cbn [run_events].
  - simpl. split; [apply subsequence_nil_l | reflexivity].
  - destruct ev as [files|].
    + assert (Hstep :
                DocxUploadModal.handle selectedFile (DocxFileChange files)
                = (match files with
                   | Some (file :: _) => Some file
                   | _ => selectedFile
                   end, [])) by (destruct files as [[|file more]|]; reflexivity).
      rewrite Hstep.
      set (next := match files with Some (file :: _) => Some file | _ => selectedFile end).
      specialize (IH next).
      destruct (run_events DocxUploadModal.handle next rest) as (st2, more) eqn:Hrun.
      cbn [snd app] in *. destruct IH as (Hsub & Hclose). split; [|exact Hclose].
      unfold next in Hsub.
      destruct files as [[|file others]|]; cbn [chosen_files flat_map app] in *;
        try exact Hsub.
      now apply subsequence_app_l.
    + destruct selectedFile as [file|]; cbn [DocxUploadModal.handle DocxUploadModal.handleUploadClick].
      * specialize (IH None).
        destruct (run_events DocxUploadModal.handle None rest) as (st2, more) eqn:Hrun.
        cbn [snd] in *. destruct IH as (Hsub & Hclose).
        rewrite uploaded_files_app, close_count_app. simpl in *.
        split; [now constructor | now rewrite Hclose].
      * specialize (IH None).
        destruct (run_events DocxUploadModal.handle None rest) as (st2, more) eqn:Hrun.
        cbn [snd] in *. destruct IH as (Hsub & Hclose).
        rewrite uploaded_files_app, close_count_app. simpl in *.
        split; [exact Hsub | exact Hclose].
Qed.

Lemma hd_error_rev_cons {A : Type} (x : A) (l : list A) :
  hd_error (rev (x :: l))
  = match hd_error (rev l) with Some y => Some y | None => Some x end.
Proof. simpl. now destruct (rev l). Qed.

(** A run of file choices makes no call and leaves the file chosen last
    selected, or the selection as it was when no file was chosen. *)
Lemma DocxUploadModal_choices choices selectedFile rest :
  run_events DocxUploadModal.handle selectedFile (map DocxFileChange choices ++ rest)
  = run_events DocxUploadModal.handle
      (match last_chosen (map DocxFileChange choices) with
       | Some file => Some file
       | None => selectedFile
       end) rest.
Proof.
  revert selectedFile.
  induction choices as [|files more IH]; intros selectedFile; [reflexivity|].
  cbn [map app run_events DocxUploadModal.handle].
  assert (Hstep :
            DocxUploadModal.handleFileChange files selectedFile
            = (match files with
               | Some (file :: _) => Some file
               | _ => selectedFile
               end, [])) by (destruct files as [[|file others]|]; reflexivity).
  rewrite Hstep. cbv beta iota. rewrite IH.
  assert (Hlast :
            match last_chosen (map DocxFileChange more) with
            | Some file => Some file
            | None => match files with
                      | Some (file :: _) => Some file
                      | _ => selectedFile
                      end
            end
            = match last_chosen (DocxFileChange files :: map DocxFileChange more) with
              | Some file => Some file
              | None => selectedFile
              end).
  { unfold last_chosen.
    destruct files as [[|file others]|]; cbn [chosen_files flat_map app];
      try reflexivity.
    fold (chosen_files (map DocxFileChange more)).
    rewrite hd_error_rev_cons.
    now destruct (hd_error (rev (chosen_files (map DocxFileChange more)))). }
  rewrite Hlast.
  now destruct (run_events DocxUploadModal.handle _ rest).
Qed.

(** X12.  Whatever the sequence of file choices and upload clicks on the
    .docx modal, the files it hands to [onUpload] are files the user
    chose, in the order chosen and each choice at most once, and the modal
    asks to be closed exactly once per upload.  Which files: choices that
    no click follows upload nothing, and an upload click hands over the
    file chosen last since the start or since the click before it (a
    choice replaced before the click is not uploaded), or nothing when
    no file was chosen, after which the modal goes on as from its initial
    state. *)
Theorem DocxUploadModal_uploads_each_choice_once :
  (forall events,
      let calls := snd (run_events DocxUploadModal.handle None events) in
      subsequence (uploaded_files calls) (chosen_files events)
      /\ close_count calls = List.length (uploaded_files calls))
  /\ (forall choices,
         uploaded_files
           (snd (run_events DocxUploadModal.handle None (map DocxFileChange choices)))
         = [])
  /\ (forall choices rest,
         uploaded_files
           (snd (run_events DocxUploadModal.handle None
                   (map DocxFileChange choices ++ DocxUploadClick :: rest)))
         = ((match last_chosen (map DocxFileChange choices) with
             | Some file => [file]
             | None => []
             end)
            ++ uploaded_files (snd (run_events DocxUploadModal.handle None rest)))%list).
Proof.
  split; [|split].
  - intros events. apply (DocxUploadModal_trace events None).
  - intros choices.
    rewrite <- (app_nil_r (map DocxFileChange choices)), DocxUploadModal_choices.
    reflexivity.
  - intros choices rest. rewrite DocxUploadModal_choices.
    cbn [run_events DocxUploadModal.handle].
    destruct (last_chosen (map DocxFileChange choices)) as [file|];
      cbn [DocxUploadModal.handleUploadClick];
      destruct (run_events DocxUploadModal.handle None rest) as (st2, more);
      cbn [snd]; rewrite uploaded_files_app; reflexivity.
Qed.

Lemma DocxUploadModal_uploads_each_choice_once_witness :
  let draft := {| File.name := "draft.docx"; File.type := "docx" |}%string in
  let final := {| File.name := "final.docx"; File.type := "docx" |}%string in
  let other := {| File.name := "other.docx"; File.type := "docx" |}%string in
  uploaded_files
    (snd (run_events DocxUploadModal.handle None
            [ DocxFileChange (Some [draft]); DocxFileChange (Some [final]);
              DocxFileChange None; DocxUploadClick; DocxUploadClick;
              DocxFileChange (Some [other; draft]); DocxUploadClick;
              DocxFileChange (Some [draft]) ]))
  = [final; other].
Proof.
  intros draft final other.
  exact (proj2 (proj2 DocxUploadModal_uploads_each_choice_once)
           [Some [draft]; Some [final]; None]
           [ DocxUploadClick; DocxFileChange (Some [other; draft]); DocxUploadClick;
             DocxFileChange (Some [draft]) ]).
Defined.

Lemma accepted_In types t : accepted types t = true -> In t types.
Proof.
  unfold accepted. intros H. apply existsb_exists in H.
  destruct H as (m & Hin & Heq). apply String.eqb_eq in Heq. now subst.
Qed.

Lemma FileUploadInput_trace exts mimes events st :
  of_type mimes (FileUploadState.internalSelectedFile st) ->
  of_type mimes
    (FileUploadState.internalSelectedFile
       (fst (run_events (FileUploadInput_handle exts mimes) st events)))
  /\ Forall (fun c => of_type mimes (file_of_call c))
       (snd (run_events (FileUploadInput_handle exts mimes) st events)).
Proof.
  revert st. induction events as [|ev rest IH]; intros st Hst; cbn [run_events].
  - simpl. split; [exact Hst | constructor].
  - destruct (FileUploadInput_handle exts mimes st ev) as (st1, calls) eqn:Hstep.
    assert (Hone : of_type mimes (FileUploadState.internalSelectedFile st1)
                   /\ Forall (fun c => of_type mimes (file_of_call c)) calls).
    { destruct ev as [files| |]; cbn [FileUploadInput_handle] in Hstep;
        unfold handleInternalUploadClick, handleInternalUploadClick_resumed in Hstep.
      - unfold handleInternalFileChange in Hstep.
        destruct files as [[|file others]|];
          try (injection Hstep as <- <-; simpl; split; repeat constructor).
        destruct (accepted mimes (File.type file)) eqn:Hacc;
          injection Hstep as <- <-; simpl; split; repeat constructor;
          now apply accepted_In.
      - destruct (FileUploadState.internalSelectedFile st) as [file|] eqn:Hfile;
          injection Hstep as <- <-; simpl; split; repeat constructor;
          try exact Hst; try (rewrite Hfile; exact Hst).
      - injection Hstep as <- <-. simpl. split; constructor. }
    destruct Hone as (Hst1 & Hcalls). specialize (IH st1 Hst1).
    destruct (run_events (FileUploadInput_handle exts mimes) st1 rest) as (st2, more).
    cbn [fst snd] in *. destruct IH as (Hst2 & Hmore).
    split; [exact Hst2 | apply Forall_app; now split].
Qed.

(** X13.  FileUploadInput never holds and never passes on a file of a
    type it does not accept: after any sequence of file choices, upload
    clicks and finished uploads, the selected file, every file given to
    [onFileSelect] and every file given to [onUploadClick] has one of
    the accepted MIME types. *)
Theorem FileUploadInput_files_have_accepted_type :
  forall allowedFileExtensions acceptedFileMimeTypes events,
    let run := run_events
                 (FileUploadInput_handle allowedFileExtensions acceptedFileMimeTypes)
                 initialFileUploadState events in
    of_type acceptedFileMimeTypes (FileUploadState.internalSelectedFile (fst run))
    /\ Forall (fun c => of_type acceptedFileMimeTypes (file_of_call c)) (snd run).
Proof.
  intros exts mimes events. apply FileUploadInput_trace. exact I.
Qed.

Lemma AnalyseResumeForm_trace events st :
  of_type allowedFileTypes (AnalyseResumeState.selectedFile st) ->
  of_type allowedFileTypes
    (AnalyseResumeState.selectedFile
       (fst (run_events AnalyseResumeForm.handle st events)))
  /\ Forall (fun c => In (File.type (resume_of_call c)) allowedFileTypes)
       (snd (run_events AnalyseResumeForm.handle st events)).
Proof.
  revert st. induction events as [|ev rest IH]; intros st Hst; cbn [run_events].
  - simpl. split; [exact Hst | constructor].
  - destruct (AnalyseResumeForm.handle st ev) as (st1, calls) eqn:Hstep.
    assert (Hone : of_type allowedFileTypes (AnalyseResumeState.selectedFile st1)
                   /\ Forall (fun c => In (File.type (resume_of_call c)) allowedFileTypes)
                        calls).
    { destruct ev as [files| |successMessage|errorMessage];
        cbn [AnalyseResumeForm.handle] in Hstep;
        unfold AnalyseResumeForm.handleFileChange, AnalyseResumeForm.handleUpload,
          AnalyseResumeForm.handleUpload_succeeded,
          AnalyseResumeForm.handleUpload_failed in Hstep.
      - destruct files as [[|file others]|];
          try (injection Hstep as <- <-; split; [exact Hst | constructor]).
        destruct (accepted allowedFileTypes (File.type file)) eqn:Hacc;
          injection Hstep as <- <-.
        + split; [now apply accepted_In | constructor].
        + split; [exact I | constructor].
      - destruct (AnalyseResumeState.selectedFile st) as [file|] eqn:Hfile;
          injection Hstep as <- <-.
        + split; [exact Hst | constructor; [exact Hst | constructor]].
        + split; [exact I | constructor].
      - injection Hstep as <- <-. split; constructor.
      - injection Hstep as <- <-. split; [exact Hst | constructor]. }
    destruct Hone as (Hst1 & Hcalls). specialize (IH st1 Hst1).
    destruct (run_events AnalyseResumeForm.handle st1 rest) as (st2, more).
    cbn [fst snd] in *. destruct IH as (Hst2 & Hmore).
    split; [exact Hst2 | apply Forall_app; now split].
Qed.

(** X14.  The resume form only ever sends a .docx document to the upload
    API: after any sequence of file choices, upload clicks and upload
    answers, the selected file and every file passed to
    [uploadResumeApiv3] has the Word document MIME type. *)
Theorem AnalyseResumeForm_uploads_only_docx :
  forall events,
    let run := run_events AnalyseResumeForm.handle initialAnalyseResumeState events in
    of_type allowedFileTypes (AnalyseResumeState.selectedFile (fst run))
    /\ Forall (fun c =>
                 File.type (resume_of_call c)
                 = "application/vnd.openxmlformats-officedocument.wordprocessingml.document"%string)
         (snd run).
Proof.
  intros events run.
  destruct (AnalyseResumeForm_trace events initialAnalyseResumeState I)
    as (Hfile & Hcalls).
  split; [exact Hfile|].
  eapply Forall_impl; [|exact Hcalls].
  intros c [Hc | []]. now symmetry.
Qed.

(** X15.  The [accept] attribute of the file input lists the allowed
    extensions unchanged, separated by commas, when each of them starts
    with a dot (the attribute drops the first character of an extension,
    whatever it is, and puts a dot in its place). *)
Theorem accept_attribute_lists_extensions :
  forall allowedFileExtensions,
    Forall (fun ext => exists rest, ext = String "." rest) allowedFileExtensions ->
    accept_attribute allowedFileExtensions = String.concat "," allowedFileExtensions.
Proof.
  intros exts Hdots. unfold accept_attribute. f_equal.
  induction Hdots as [|ext rest (r & ->) _ IH]; simpl; [reflexivity|].
  f_equal. exact IH.
Qed.

Lemma accept_attribute_lists_extensions_witness :
  accept_attribute [".docx"; ".pdf"]%string = ".docx,.pdf"%string.
Proof.
  apply (accept_attribute_lists_extensions [".docx"; ".pdf"]%string).
  repeat constructor; eexists; reflexivity.
Defined.

(** ** The keyword details of a parsed resume *)

Lemma string_app_inv_head (p s t : string) : (p ++ s)%string = (p ++ t)%string -> s = t.
Proof. induction p as [|c p IH]; simpl; [tauto|]. intros [= H]. now apply IH. Qed.

Lemma chip_keys_distinct category (items : list (option string)) :
  NoDup (map KeywordBox.chip_key (KeywordBox.chips (keyword_box category items))).
Proof.
  unfold keyword_box, mapi. cbn [KeywordBox.chips].
  assert (Hkeys :
            forall k,
              map KeywordBox.chip_key
                (mapi_from k
                   (fun idx keyword =>
                      {| KeywordBox.chip_key := (category ++ "-" ++ index_key idx)%string;
                         KeywordBox.label := keyword_label keyword |}) items)
              = map (fun idx => (category ++ "-" ++ index_key idx)%string)
                  (seq k (List.length items))).
  { induction items as [|item rest IH]; intros k; simpl; [reflexivity|].
    now rewrite IH. }
  rewrite Hkeys. apply Finite.Injective_map_NoDup; [|apply seq_NoDup].
  intros i j Hij. apply string_app_inv_head in Hij.
  apply (string_app_inv_head "-") in Hij. now apply index_key_injective.
Qed.

Lemma keyword_boxes_spec entries :
  let boxes :=
    flat_map (fun entry =>
                match snd entry with
                | Some ((_ :: _) as items) => [keyword_box (fst entry) items]
                | _ => []
                end) entries in
  boxes = map (fun c => keyword_box (fst c) (snd c)) (categories_with_items entries).
Proof.
  induction entries as [|[category [[|item rest]|]] more IH]; simpl in *;
    try exact IH; try reflexivity.
  now rewrite IH.
Qed.

(** X16.  The keyword details of a resume show N/A only when the details
    are missing or have no category at all.  Otherwise there is one box
    per category that has items, in the order of the record and keyed by
    the category, with one chip per item; a category without items
    leaves nothing, so details whose categories are all empty show
    neither boxes nor N/A.  No box is empty, and the chips of a box have
    distinct keys. *)
Theorem renderKeywordDetails_boxes :
  forall details,
    match renderKeywordDetails details with
    | DetailsNotAvailable => details = None \/ details = Some []
    | DetailsBoxes boxes =>
        exists entries,
          details = Some entries /\ entries <> []
          /\ map KeywordBox.key boxes = map fst (categories_with_items entries)
          /\ map (fun box => List.length (KeywordBox.chips box)) boxes
             = map (fun c => List.length (snd c)) (categories_with_items entries)
          /\ Forall (fun box =>
                       KeywordBox.chips box <> []
                       /\ NoDup (map KeywordBox.chip_key (KeywordBox.chips box)))
               boxes
    end.
Proof.
  intros [[|entry entries]|]; cbn [renderKeywordDetails]; [now right | | now left].
  exists (entry :: entries). split; [reflexivity|]. split; [discriminate|].
  rewrite (keyword_boxes_spec (entry :: entries)).
  generalize (entry :: entries). clear entry entries. intros entries.
  rewrite !map_map. cbn [keyword_box KeywordBox.key KeywordBox.chips].
  split; [reflexivity|]. split.
  - apply map_ext. intros c. apply length_mapi.
  - apply Forall_forall. intros box Hbox.
    apply in_map_iff in Hbox. destruct Hbox as ((category & items) & <- & Hin).
    split; [|apply chip_keys_distinct].
    unfold categories_with_items in Hin. apply in_flat_map in Hin.
    destruct Hin as ((category' & [[|item rest]|]) & _ & Hin); simpl in Hin;
      try contradiction.
    destruct Hin as [[= <- <-] | []]. discriminate.
Qed.

(** ** The organization selected on the job description page *)

(** X17.  After the organizations are loaded, the page selects either no
    organization or one of those fetched, and it requests job
    descriptions only for an organization of the fetched list.  The
    user's own organization is selected when it is among them; without
    that, a single fetched organization is selected and several leave
    the choice open. *)
Theorem preselected_organization_is_fetched :
  forall appUser_organizationId fetchedOrgs,
    let selectedId := preselected_organization appUser_organizationId fetchedOrgs in
    (selectedId = ""%string \/ In selectedId (map Organization.id fetchedOrgs))
    /\ (forall id, job_descriptions_requested selectedId = Some id ->
                   In id (map Organization.id fetchedOrgs))
    /\ (appUser_organizationId <> ""%string ->
        In appUser_organizationId (map Organization.id fetchedOrgs) ->
        selectedId = appUser_organizationId)
    /\ (~ In appUser_organizationId (map Organization.id fetchedOrgs) ->
        (1 < List.length fetchedOrgs)%nat -> selectedId = ""%string).
Proof.
  intros user orgs selectedId.
  assert (Hsel : selectedId = ""%string \/ In selectedId (map Organization.id orgs)).
  { unfold selectedId, preselected_organization.
    destruct (negb (user =? "")%string && existsb _ orgs) eqn:Huser.
    - right. apply andb_true_iff in Huser. destruct Huser as (_ & Hex).
      apply existsb_exists in Hex. destruct Hex as (org & Hin & Heq).
      apply String.eqb_eq in Heq. rewrite <- Heq. now apply in_map.
    - destruct orgs as [|org [|org' more]]; [now left | right; now left | now left]. }
  split; [exact Hsel|]. split; [|split].
  - unfold job_descriptions_requested. intros id.
    destruct (selectedId =? "")%string eqn:Hempty; [discriminate|].
    intros [= <-]. destruct Hsel as [Hsel|Hsel]; [|exact Hsel].
    apply String.eqb_neq in Hempty. contradiction.
  - intros Hne Hin. unfold selectedId, preselected_organization.
    apply String.eqb_neq in Hne. rewrite Hne. simpl.
    replace (existsb _ orgs) with true; [reflexivity|].
    symmetry. apply existsb_exists.
    apply in_map_iff in Hin. destruct Hin as (org & Heq & Hin).
    exists org. split; [exact Hin | now apply String.eqb_eq].
  - intros Hnotin Hmany. unfold selectedId, preselected_organization.
    replace (existsb _ orgs) with false.
    + rewrite andb_false_r. destruct orgs as [|org [|org' more]]; simpl in *;
        try lia; reflexivity.
    + symmetry. apply not_true_is_false. intros Hex.
      apply existsb_exists in Hex. destruct Hex as (org & Hin & Heq).
      apply String.eqb_eq in Heq. apply Hnotin. rewrite <- Heq. now apply in_map.
Qed.
